(** * librevault: the FolderGroup coordinator (daemon/folder/FolderGroup.cpp)

    A shallow embedding of [FolderGroup]: its peer registry, the Qt
    connection table it fills with [connect], the tasks it posts with
    [QTimer::singleShot(0, ...)], and the calls it makes on its subordinate
    components.  The members keep the names they have in the C++ source. *)

From stdpp Require Import gmap strings list.

#[local] Set Warnings "-clear-no-such-hyp".

(** ** Data *)

(** [RemoteFolder*] / [P2PFolder*]: the address of the peer session object. *)
Definition ptr : Type := positive.

(** [blob] is [std::vector<uint8_t>]; a [QByteArray] is a byte string too. *)
Definition blob : Type := list N.
Definition QByteArray : Type := list N.
Definition conv_bytearray (b : blob) : QByteArray := b.

(** Modelled from the spec: P2PFolder.h is not among the sources; an endpoint
    is a network address, taken here as host and port. *)
Definition Endpoint : Type := string * N.

Definition bitfield_type : Type := list bool.

(** Modelled from the spec: Meta.h and SignedMeta.h are not among the
    sources.  PathRevision := (path-hash, revision-number); a Meta describes
    one path at one revision with its per-chunk content hashes; a SignedMeta
    is a Meta with a signature. *)
Record PathRevision : Type := { path_id_ : blob; revision_ : Z }.
Record Meta : Type := { path_revision : PathRevision; chunks : list blob }.
Record SignedMeta : Type := { meta : Meta; signature : blob }.

#[local] Unset Elimination Schemes.
Inductive QJsonValue : Type :=
  | QJsonString (s : string)
  | QJsonArray (items : list QJsonValue)
  | QJsonObject (fields : list (string * QJsonValue)).
#[local] Set Elimination Schemes.

(** Modelled from the spec: Secret.h is not among the sources.  A Secret has
    a kind tag, a public hash used as FolderId and a stringized form. *)
Record Secret : Type := { get_type : N; get_Hash : blob; secret_string : string }.

Record FolderParams : Type :=
  { path : string; system_path : string; secret : Secret }.

Record QTimer : Type := { interval : N; active : bool }.

(** ** Calls on the subordinate components

    One inductive type per component, one constructor per member function
    FolderGroup.cpp calls on it. *)

Module Downloader.
Inductive call : Type :=
  | notifyLocalChunk (ct_hash : blob)
  | notifyLocalMeta (smeta : SignedMeta) (bitfield : bitfield_type)
  | trackRemote (remote : ptr)
  | untrackRemote (remote : ptr)
  | handleChoke (remote : ptr)
  | handleUnchoke (remote : ptr)
  | notifyRemoteChunk (remote : ptr) (ct_hash : blob)
  | putBlock (ct_hash : blob) (offset : N) (block : blob) (remote : ptr).
End Downloader.

Module Uploader.
Inductive call : Type :=
  | broadcast_chunk (remotes : list ptr) (ct_hash : blob)
  | handle_interested (remote : ptr)
  | handle_not_interested (remote : ptr)
  | handle_block_request (remote : ptr) (ct_hash : blob) (offset size : N).
End Uploader.

Module MetaUploader.
Inductive call : Type :=
  | broadcast_meta (remotes : list ptr) (revision : PathRevision)
      (bitfield : bitfield_type)
  | handle_meta_request (remote : ptr) (path_revision : PathRevision)
  | handle_handshake (remote : ptr).
End MetaUploader.

Module MetaDownloader.
Inductive call : Type :=
  | handle_have_meta (remote : ptr) (revision : PathRevision)
      (bitfield : bitfield_type)
  | handle_meta_reply (remote : ptr) (smeta : SignedMeta)
      (bitfield : bitfield_type).
End MetaDownloader.

Module StateCollector.
Inductive call : Type :=
  | folder_state_set (folderid : QByteArray) (key : string) (value : QJsonValue)
  | folder_state_purge (folderid : QByteArray).
End StateCollector.

(** The four registry members of [FolderGroup], as the slots of one of its
    own signals see them when the signal is emitted. *)
Record Registry : Type :=
  { seen_remotes : gset ptr;
    seen_endpoints : gset Endpoint;
    seen_digests : gset QByteArray;
    seen_ready : gset ptr }.

(** [FolderGroup]'s own signals. *)
Inductive FolderGroupSignal : Type :=
  | attached (remote : ptr)
  | detached (remote : ptr).

(** What the coordinator does to the outside, in program order.  An [emitted]
    entry carries the registry at the moment of the [emit]: directly connected
    slots run inside the [emit] and observe exactly that. *)
Inductive Effect : Type :=
  | LOGFUNC (function : string)
  | LOGD (msg : list string)
  | QDir_mkpath (dir : string)
  | on_downloader (c : Downloader.call)
  | on_uploader (c : Uploader.call)
  | on_meta_uploader (c : MetaUploader.call)
  | on_meta_downloader (c : MetaDownloader.call)
  | on_state_collector (c : StateCollector.call)
  | on_chunk_storage_put_chunk (ct_hash : blob) (chunk : blob)
  | emitted (s : FolderGroupSignal) (seen : Registry).

(** ** Qt objects, signals, slots *)

Inductive QObject : Type :=
  | this
  | meta_storage_obj
  | chunk_storage_obj
  | uploader_obj
  | downloader_obj
  | meta_uploader_obj
  | meta_downloader_obj
  | state_pusher_obj
  | remote_obj (remote : ptr).

(** The pointer-to-member naming a signal in [connect]. *)
Inductive SignalName : Type :=
  | MetaStorage_metaAdded
  | ChunkStorage_chunkAdded
  | Downloader_chunkDownloaded
  | QTimer_timeout
  | RemoteFolder_handshakeSuccess
  | RemoteFolder_rcvdChoke
  | RemoteFolder_rcvdUnchoke
  | RemoteFolder_rcvdInterested
  | RemoteFolder_rcvdNotInterested
  | RemoteFolder_rcvdHaveMeta
  | RemoteFolder_rcvdHaveChunk
  | RemoteFolder_rcvdMetaRequest
  | RemoteFolder_rcvdMetaReply
  | RemoteFolder_rcvdBlockRequest
  | RemoteFolder_rcvdBlockReply.

(** An emission: the signal with its arguments. *)
Inductive Signal : Type :=
  | metaAdded (smeta : SignedMeta)
  | chunkAdded (ct_hash : blob)
  | chunkDownloaded (ct_hash : blob) (chunk : blob)
  | timeout
  | handshakeSuccess
  | rcvdChoke
  | rcvdUnchoke
  | rcvdInterested
  | rcvdNotInterested
  | rcvdHaveMeta (revision : PathRevision) (bitfield : bitfield_type)
  | rcvdHaveChunk (ct_hash : blob)
  | rcvdMetaRequest (path_revision : PathRevision)
  | rcvdMetaReply (smeta : SignedMeta) (bitfield : bitfield_type)
  | rcvdBlockRequest (ct_hash : blob) (offset size : N)
  | rcvdBlockReply (ct_hash : blob) (offset : N) (block : blob).

Definition signal_name (s : Signal) : SignalName :=
  match s with
  | metaAdded _ => MetaStorage_metaAdded
  | chunkAdded _ => ChunkStorage_chunkAdded
  | chunkDownloaded _ _ => Downloader_chunkDownloaded
  | timeout => QTimer_timeout
  | handshakeSuccess => RemoteFolder_handshakeSuccess
  | rcvdChoke => RemoteFolder_rcvdChoke
  | rcvdUnchoke => RemoteFolder_rcvdUnchoke
  | rcvdInterested => RemoteFolder_rcvdInterested
  | rcvdNotInterested => RemoteFolder_rcvdNotInterested
  | rcvdHaveMeta _ _ => RemoteFolder_rcvdHaveMeta
  | rcvdHaveChunk _ => RemoteFolder_rcvdHaveChunk
  | rcvdMetaRequest _ => RemoteFolder_rcvdMetaRequest
  | rcvdMetaReply _ _ => RemoteFolder_rcvdMetaReply
  | rcvdBlockRequest _ _ _ => RemoteFolder_rcvdBlockRequest
  | rcvdBlockReply _ _ _ => RemoteFolder_rcvdBlockReply
  end.

(** The slots of FolderGroup.cpp, defunctionalised: member-function slots by
    name, each lambda by the place it is written at, with what it captures. *)
Inductive Slot : Type :=
  | slot_handle_indexed_meta                 (* &FolderGroup::handle_indexed_meta *)
  | slot_chunkAdded                          (* the lambda of line 85 *)
  | slot_put_chunk                           (* &ChunkStorage::put_chunk *)
  | slot_push_state                          (* &FolderGroup::push_state *)
  | slot_handshakeSuccess (remote : ptr)     (* [=]{handle_handshake(remote);} *)
  | slot_rcvdChoke (origin : ptr)
  | slot_rcvdUnchoke (origin : ptr)
  | slot_rcvdInterested (origin : ptr)
  | slot_rcvdNotInterested (origin : ptr)
  | slot_rcvdHaveMeta (origin : ptr)
  | slot_rcvdHaveChunk (origin : ptr)
  | slot_rcvdMetaRequest (origin : ptr)
  | slot_rcvdMetaReply (origin : ptr)
  | slot_rcvdBlockRequest (origin : ptr)
  | slot_rcvdBlockReply (origin : ptr).

(** One [connect(sender, signal, context, slot)]. *)
Record Connection : Type :=
  { sender : QObject; signal : SignalName; context : QObject; slot : Slot }.

(** One [QTimer::singleShot(0, context, functor)] waiting in the event loop. *)
Inductive Functor : Type :=
  | go_through_index                         (* the lambda of line 97 *)
  | meta_uploader_handshake (origin : ptr).  (* the lambda of line 148 *)

Record Task : Type := { task_context : QObject; task_functor : Functor }.

#[global] Instance QObject_eq_dec : EqDecision QObject.
Proof. solve_decision. Defined.
#[global] Instance SignalName_eq_dec : EqDecision SignalName.
Proof. solve_decision. Defined.
#[global] Instance Slot_eq_dec : EqDecision Slot.
Proof. solve_decision. Defined.

(** ** Sample collaborators

    Concrete remotes and stores on which the statements below are run. *)

Module Sample.

(** Every session has a digest and an endpoint of its own. *)
Definition digest (remote : ptr) : QByteArray := [N.pos remote].
Definition endpoint (remote : ptr) : Endpoint :=
  ("10.0.0.1"%string, (40000 + N.pos remote)%N).

(** Two sessions to one peer (one certificate) over two addresses. *)
Definition same_peer_digest (remote : ptr) : QByteArray := [171%N; 205%N].

(** Two sessions from one address and port. *)
Definition same_endpoint (remote : ptr) : Endpoint := ("10.0.0.1"%string, 40000%N).

Definition displayName (remote : ptr) : string := "peer".
Definition collect_state (remote : ptr) : QJsonValue :=
  QJsonObject [("endpoint"%string, QJsonString "10.0.0.1")].

(** A MetaStorage is its index, a ChunkStorage the hashes it holds. *)
Definition getMeta (ms : list SignedMeta) : list SignedMeta := ms.
Definition make_bitfield (cs : gset blob) (m : Meta) : bitfield_type :=
  (λ ct_hash, bool_decide (ct_hash ∈ cs)) <$> chunks m.
Definition put_chunk (cs : gset blob) (ct_hash chunk : blob) : gset blob :=
  {[ct_hash]} ∪ cs.
Definition heartbeat_json (bc : unit) : QJsonValue * unit := (QJsonObject [], tt).

Definition params : FolderParams :=
  {| path := "/home/user/Sync"; system_path := "/home/user/Sync/.librevault";
     secret := {| get_type := 65; get_Hash := [1%N; 2%N; 3%N];
                  secret_string := "A-secret" |} |}.

Definition smeta1 : SignedMeta :=
  {| meta := {| path_revision := {| path_id_ := [7%N]; revision_ := 1 |};
                chunks := [[10%N]; [11%N]] |};
     signature := [99%N] |}.
Definition smeta2 : SignedMeta :=
  {| meta := {| path_revision := {| path_id_ := [8%N]; revision_ := 5 |};
                chunks := [[12%N]] |};
     signature := [98%N] |}.

End Sample.

(** ** The coordinator *)

Section FolderGroup.

#[local] Set Default Proof Using "Type".

(** The collaborators FolderGroup.cpp uses and whose code lives elsewhere:
    what a remote answers to [digest()], [endpoint()], [displayName()] and
    [collect_state()], and the member functions of MetaStorage, ChunkStorage
    and the bandwidth counter that the coordinator reads results from. *)
Context {MetaStorage ChunkStorage BandwidthCounter : Type}.
Variable getMeta : MetaStorage → list SignedMeta.
Variable make_bitfield : ChunkStorage → Meta → bitfield_type.
Variable put_chunk : ChunkStorage → blob → blob → ChunkStorage.
Variable heartbeat_json : BandwidthCounter → QJsonValue * BandwidthCounter.
Variable digest : ptr → QByteArray.
Variable endpoint : ptr → Endpoint.
Variable displayName : ptr → string.
Variable collect_state : ptr → QJsonValue.

Record FolderGroup : Type := mkFolderGroup
  { params_ : FolderParams;
    meta_storage_ : MetaStorage;
    chunk_storage_ : ChunkStorage;
    bandwidth_counter_ : BandwidthCounter;
    state_pusher_ : QTimer;
    remotes_ : gset ptr;
    remotes_ready_ : gset ptr;
    p2p_folders_endpoints_ : gset Endpoint;
    p2p_folders_digests_ : gset QByteArray;
    connections : list Connection;   (* what [connect] has established *)
    posted : list Task;              (* zero-delay timers not yet fired *)
    log : list Effect }.

Definition Action : Type := FolderGroup → FolderGroup.

Definition seq (a b : Action) : Action := λ fg, b (a fg).
Local Notation "a >> b" := (seq a b) (at level 61, left associativity).

(** Member updates. *)
Definition set_chunk_storage_ (v : ChunkStorage) : Action := λ fg,
  mkFolderGroup (params_ fg) (meta_storage_ fg) v (bandwidth_counter_ fg)
    (state_pusher_ fg) (remotes_ fg) (remotes_ready_ fg)
    (p2p_folders_endpoints_ fg) (p2p_folders_digests_ fg)
    (connections fg) (posted fg) (log fg).
Definition set_bandwidth_counter_ (v : BandwidthCounter) : Action := λ fg,
  mkFolderGroup (params_ fg) (meta_storage_ fg) (chunk_storage_ fg) v
    (state_pusher_ fg) (remotes_ fg) (remotes_ready_ fg)
    (p2p_folders_endpoints_ fg) (p2p_folders_digests_ fg)
    (connections fg) (posted fg) (log fg).
Definition set_state_pusher_ (v : QTimer) : Action := λ fg,
  mkFolderGroup (params_ fg) (meta_storage_ fg) (chunk_storage_ fg)
    (bandwidth_counter_ fg) v (remotes_ fg) (remotes_ready_ fg)
    (p2p_folders_endpoints_ fg) (p2p_folders_digests_ fg)
    (connections fg) (posted fg) (log fg).
Definition set_remotes_ (v : gset ptr) : Action := λ fg,
  mkFolderGroup (params_ fg) (meta_storage_ fg) (chunk_storage_ fg)
    (bandwidth_counter_ fg) (state_pusher_ fg) v (remotes_ready_ fg)
    (p2p_folders_endpoints_ fg) (p2p_folders_digests_ fg)
    (connections fg) (posted fg) (log fg).
Definition set_remotes_ready_ (v : gset ptr) : Action := λ fg,
  mkFolderGroup (params_ fg) (meta_storage_ fg) (chunk_storage_ fg)
    (bandwidth_counter_ fg) (state_pusher_ fg) (remotes_ fg) v
    (p2p_folders_endpoints_ fg) (p2p_folders_digests_ fg)
    (connections fg) (posted fg) (log fg).
Definition set_p2p_folders_endpoints_ (v : gset Endpoint) : Action := λ fg,
  mkFolderGroup (params_ fg) (meta_storage_ fg) (chunk_storage_ fg)
    (bandwidth_counter_ fg) (state_pusher_ fg) (remotes_ fg)
    (remotes_ready_ fg) v (p2p_folders_digests_ fg)
    (connections fg) (posted fg) (log fg).
Definition set_p2p_folders_digests_ (v : gset QByteArray) : Action := λ fg,
  mkFolderGroup (params_ fg) (meta_storage_ fg) (chunk_storage_ fg)
    (bandwidth_counter_ fg) (state_pusher_ fg) (remotes_ fg)
    (remotes_ready_ fg) (p2p_folders_endpoints_ fg) v
    (connections fg) (posted fg) (log fg).
Definition set_connections (v : list Connection) : Action := λ fg,
  mkFolderGroup (params_ fg) (meta_storage_ fg) (chunk_storage_ fg)
    (bandwidth_counter_ fg) (state_pusher_ fg) (remotes_ fg)
    (remotes_ready_ fg) (p2p_folders_endpoints_ fg)
    (p2p_folders_digests_ fg) v (posted fg) (log fg).
Definition set_posted (v : list Task) : Action := λ fg,
  mkFolderGroup (params_ fg) (meta_storage_ fg) (chunk_storage_ fg)
    (bandwidth_counter_ fg) (state_pusher_ fg) (remotes_ fg)
    (remotes_ready_ fg) (p2p_folders_endpoints_ fg)
    (p2p_folders_digests_ fg) (connections fg) v (log fg).
Definition set_log (v : list Effect) : Action := λ fg,
  mkFolderGroup (params_ fg) (meta_storage_ fg) (chunk_storage_ fg)
    (bandwidth_counter_ fg) (state_pusher_ fg) (remotes_ fg)
    (remotes_ready_ fg) (p2p_folders_endpoints_ fg)
    (p2p_folders_digests_ fg) (connections fg) (posted fg) v.

(** *** Primitives *)

(** A call on a collaborator, a log line, a directory creation. *)
Definition effect (e : Effect) : Action := λ fg, set_log (log fg ++ [e]) fg.

Definition registry (fg : FolderGroup) : Registry :=
  {| seen_remotes := remotes_ fg;
     seen_endpoints := p2p_folders_endpoints_ fg;
     seen_digests := p2p_folders_digests_ fg;
     seen_ready := remotes_ready_ fg |}.

(** [emit s]: the slots connected to [s] run now, on the current registry. *)
Definition emit (s : FolderGroupSignal) : Action := λ fg,
  effect (emitted s (registry fg)) fg.

(** [connect(sender, signal, context, slot)]: Qt appends the connection; it
    never merges it with an equal one made before. *)
Definition connect (snd_ : QObject) (sig : SignalName) (ctx : QObject)
    (sl : Slot) : Action := λ fg,
  set_connections
    (connections fg ++
       [{| sender := snd_; signal := sig; context := ctx; slot := sl |}]) fg.

(** [QTimer::singleShot(0, context, functor)]: the functor runs from the
    event loop, after the current handler has returned. *)
Definition singleShot (ctx : QObject) (f : Functor) : Action := λ fg,
  set_posted (posted fg ++ [{| task_context := ctx; task_functor := f |}]) fg.

(** Modelled from the spec: FolderGroup.h, which declares [folderid()], is
    not among the sources.  The FolderId is the hash of the secret's public
    form, the value the constructor and the destructor pass to the state
    collector as [conv_bytearray(params_.secret.get_Hash())]. *)
Definition folderid (fg : FolderGroup) : QByteArray :=
  conv_bytearray (get_Hash (secret (params_ fg))).

(** [remotes()]: [remotes_.toList()]. *)
Definition remotes (fg : FolderGroup) : list ptr := elements (remotes_ fg).

(** *** Actions *)

Definition handle_indexed_meta (smeta : SignedMeta) : Action := λ fg,
  let revision := path_revision (meta smeta) in
  let bitfield := make_bitfield (chunk_storage_ fg) (meta smeta) in
  (effect (on_downloader (Downloader.notifyLocalMeta smeta bitfield)) >>
   (λ fg, effect (on_meta_uploader
                    (MetaUploader.broadcast_meta (remotes fg) revision bitfield))
            fg)) fg.

Definition handle_handshake (origin : ptr) : Action :=
  (λ fg, set_remotes_ready_ ({[origin]} ∪ remotes_ready_ fg) fg) >>
  effect (on_downloader (Downloader.trackRemote origin)) >>
  connect (remote_obj origin) RemoteFolder_rcvdChoke downloader_obj
    (slot_rcvdChoke origin) >>
  connect (remote_obj origin) RemoteFolder_rcvdUnchoke downloader_obj
    (slot_rcvdUnchoke origin) >>
  connect (remote_obj origin) RemoteFolder_rcvdInterested downloader_obj
    (slot_rcvdInterested origin) >>
  connect (remote_obj origin) RemoteFolder_rcvdNotInterested downloader_obj
    (slot_rcvdNotInterested origin) >>
  connect (remote_obj origin) RemoteFolder_rcvdHaveMeta meta_downloader_obj
    (slot_rcvdHaveMeta origin) >>
  connect (remote_obj origin) RemoteFolder_rcvdHaveChunk downloader_obj
    (slot_rcvdHaveChunk origin) >>
  connect (remote_obj origin) RemoteFolder_rcvdMetaRequest meta_uploader_obj
    (slot_rcvdMetaRequest origin) >>
  connect (remote_obj origin) RemoteFolder_rcvdMetaReply meta_downloader_obj
    (slot_rcvdMetaReply origin) >>
  connect (remote_obj origin) RemoteFolder_rcvdBlockRequest uploader_obj
    (slot_rcvdBlockRequest origin) >>
  connect (remote_obj origin) RemoteFolder_rcvdBlockReply downloader_obj
    (slot_rcvdBlockReply origin) >>
  singleShot meta_uploader_obj (meta_uploader_handshake origin).

Definition attach (remote : ptr) (fg : FolderGroup) : bool * FolderGroup :=
  if bool_decide (remote ∈ remotes_ fg)
     || bool_decide (digest remote ∈ p2p_folders_digests_ fg)
     || bool_decide (endpoint remote ∈ p2p_folders_endpoints_ fg)
  then (false, fg)
  else
    (true,
     ((λ fg, set_remotes_ ({[remote]} ∪ remotes_ fg) fg) >>
      (λ fg, set_p2p_folders_endpoints_
               ({[endpoint remote]} ∪ p2p_folders_endpoints_ fg) fg) >>
      (λ fg, set_p2p_folders_digests_
               ({[digest remote]} ∪ p2p_folders_digests_ fg) fg) >>
      effect (LOGD ["Attached remote "; displayName remote]) >>
      connect (remote_obj remote) RemoteFolder_handshakeSuccess this
        (slot_handshakeSuccess remote) >>
      emit (attached remote)) fg).

Definition detach (remote : ptr) : Action := λ fg,
  if negb (bool_decide (remote ∈ remotes_ fg)) then fg
  else
    (emit (detached remote) >>
     effect (on_downloader (Downloader.untrackRemote remote)) >>
     (λ fg, set_p2p_folders_digests_
              (p2p_folders_digests_ fg ∖ {[digest remote]}) fg) >>
     (λ fg, set_p2p_folders_endpoints_
              (p2p_folders_endpoints_ fg ∖ {[endpoint remote]}) fg) >>
     (λ fg, set_remotes_ (remotes_ fg ∖ {[remote]}) fg) >>
     (λ fg, set_remotes_ready_ (remotes_ready_ fg ∖ {[remote]}) fg) >>
     effect (LOGD ["Detached remote "; displayName remote])) fg.

Definition push_state : Action :=
  (λ fg,
     let peers_array := map collect_state (elements (remotes_ fg)) in
     effect (on_state_collector
               (StateCollector.folder_state_set (folderid fg) "peers"
                  (QJsonArray peers_array))) fg) >>
  (λ fg,
     let '(json, counter) := heartbeat_json (bandwidth_counter_ fg) in
     (set_bandwidth_counter_ counter >>
      effect (on_state_collector
                (StateCollector.folder_state_set (folderid fg) "traffic_stats"
                   json))) fg).

(** The constructor.  The subordinate components come in as they are once
    their own constructors have run; [SetFileAttributesW] is compiled on
    Windows only and is left out. *)
Definition FolderGroup_new (params : FolderParams) (ms : MetaStorage)
    (cs : ChunkStorage) (bc : BandwidthCounter) : FolderGroup :=
  (effect (LOGFUNC "FolderGroup") >>
   effect (QDir_mkpath (path params)) >>
   effect (QDir_mkpath (system_path params)) >>
   effect (LOGD ["New folder:"; "Key type=";
                 String (Ascii.ascii_of_N (get_type (secret params))) EmptyString;
                 "Path="; path params; "System path="; system_path params]) >>
   effect (on_state_collector
             (StateCollector.folder_state_set
                (conv_bytearray (get_Hash (secret params))) "secret"
                (QJsonString (secret_string (secret params))))) >>
   connect meta_storage_obj MetaStorage_metaAdded this slot_handle_indexed_meta >>
   connect chunk_storage_obj ChunkStorage_chunkAdded this slot_chunkAdded >>
   connect downloader_obj Downloader_chunkDownloaded chunk_storage_obj
     slot_put_chunk >>
   connect state_pusher_obj QTimer_timeout this slot_push_state >>
   (λ fg, set_state_pusher_
            {| interval := 1000; active := active (state_pusher_ fg) |} fg) >>
   (λ fg, set_state_pusher_
            {| interval := interval (state_pusher_ fg); active := true |} fg) >>
   singleShot this go_through_index)
    {| params_ := params; meta_storage_ := ms; chunk_storage_ := cs;
       bandwidth_counter_ := bc;
       state_pusher_ := {| interval := 0; active := false |};
       remotes_ := ∅; remotes_ready_ := ∅;
       p2p_folders_endpoints_ := ∅; p2p_folders_digests_ := ∅;
       connections := []; posted := []; log := [] |}.

(** The destructor. *)
Definition FolderGroup_delete : Action :=
  (λ fg, set_state_pusher_
           {| interval := interval (state_pusher_ fg); active := false |} fg) >>
  (λ fg, effect (on_state_collector
                   (StateCollector.folder_state_purge
                      (conv_bytearray (get_Hash (secret (params_ fg)))))) fg) >>
  effect (LOGFUNC "~FolderGroup").

(** *** Signal delivery and the event loop *)

(** What a slot does when it is invoked with the arguments of an emission.
    [connect] does not compile when the slot cannot take the signal's
    arguments, so the last case never runs. *)
Definition run_slot (sl : Slot) (s : Signal) : Action :=
  match sl, s with
  | slot_handle_indexed_meta, metaAdded smeta => handle_indexed_meta smeta
  | slot_chunkAdded, chunkAdded ct_hash =>
      effect (on_downloader (Downloader.notifyLocalChunk ct_hash)) >>
      (λ fg, effect (on_uploader
                       (Uploader.broadcast_chunk (remotes fg) ct_hash)) fg)
  | slot_put_chunk, chunkDownloaded ct_hash chunk =>
      effect (on_chunk_storage_put_chunk ct_hash chunk) >>
      (λ fg, set_chunk_storage_
               (put_chunk (chunk_storage_ fg) ct_hash chunk) fg)
  | slot_push_state, timeout => push_state
  | slot_handshakeSuccess remote, handshakeSuccess => handle_handshake remote
  | slot_rcvdChoke origin, rcvdChoke =>
      effect (on_downloader (Downloader.handleChoke origin))
  | slot_rcvdUnchoke origin, rcvdUnchoke =>
      effect (on_downloader (Downloader.handleUnchoke origin))
  | slot_rcvdInterested origin, rcvdInterested =>
      effect (on_uploader (Uploader.handle_interested origin))
  | slot_rcvdNotInterested origin, rcvdNotInterested =>
      effect (on_uploader (Uploader.handle_not_interested origin))
  | slot_rcvdHaveMeta origin, rcvdHaveMeta revision bitfield =>
      effect (on_meta_downloader
                (MetaDownloader.handle_have_meta origin revision bitfield))
  | slot_rcvdHaveChunk origin, rcvdHaveChunk ct_hash =>
      effect (on_downloader (Downloader.notifyRemoteChunk origin ct_hash))
  | slot_rcvdMetaRequest origin, rcvdMetaRequest path_revision =>
      effect (on_meta_uploader
                (MetaUploader.handle_meta_request origin path_revision))
  | slot_rcvdMetaReply origin, rcvdMetaReply smeta bitfield =>
      effect (on_meta_downloader
                (MetaDownloader.handle_meta_reply origin smeta bitfield))
  | slot_rcvdBlockRequest origin, rcvdBlockRequest ct_hash offset size =>
      effect (on_uploader
                (Uploader.handle_block_request origin ct_hash offset size))
  | slot_rcvdBlockReply origin, rcvdBlockReply ct_hash offset block =>
      effect (on_downloader (Downloader.putBlock ct_hash offset block origin))
  | _, _ => λ fg, fg
  end.

(** The slots an emission of [s] by [snd_] activates: those of the
    connections made for that sender and that signal, in the order the
    connections were made. *)
Definition receivers (snd_ : QObject) (s : Signal) (fg : FolderGroup)
    : list Slot :=
  slot <$> filter (λ c, sender c = snd_ ∧ signal c = signal_name s)
             (connections fg).

(** An emission.  Every object lives in the folder's thread, so each
    connection is direct: the slots run one after the other inside the
    emit. *)
Definition deliver (snd_ : QObject) (s : Signal) : Action := λ fg,
  foldl (λ fg sl, run_slot sl s fg) fg (receivers snd_ s fg).

Definition run_functor (f : Functor) : Action :=
  match f with
  | go_through_index => λ fg,
      foldl (λ fg smeta, handle_indexed_meta smeta fg) fg
        (getMeta (meta_storage_ fg))
  | meta_uploader_handshake origin =>
      effect (on_meta_uploader (MetaUploader.handle_handshake origin))
  end.

(** One turn of the event loop: the oldest zero-delay timer fires. *)
Definition event_loop_turn : Action := λ fg,
  match posted fg with
  | [] => fg
  | t :: rest => run_functor (task_functor t) (set_posted rest fg)
  end.

(** What can happen to a FolderGroup once it is constructed. *)
Inductive Event : Type :=
  | call_attach (remote : ptr)
  | call_detach (remote : ptr)
  | signal_from (snd_ : QObject) (s : Signal)
  | loop_turn.

Definition step (ev : Event) : Action :=
  match ev with
  | call_attach remote => λ fg, (attach remote fg).2
  | call_detach remote => detach remote
  | signal_from snd_ s => deliver snd_ s
  | loop_turn => event_loop_turn
  end.

Definition run (evs : list Event) : Action := λ fg,
  foldl (λ fg ev, step ev fg) fg evs.

(** *** Statements about the registry and the wiring *)

(** The registry as the spec's first invariant words it: a remote is in
    [remotes_] iff its digest is in [p2p_folders_digests_] iff its endpoint is
    in [p2p_folders_endpoints_]. *)
Definition registry_iff_chain (fg : FolderGroup) : Prop :=
  ∀ remote,
    (remote ∈ remotes_ fg ↔ digest remote ∈ p2p_folders_digests_ fg)
    ∧ (digest remote ∈ p2p_folders_digests_ fg
       ↔ endpoint remote ∈ p2p_folders_endpoints_ fg).

(** The digests (endpoints) registered are exactly those of the attached
    remotes, and no two attached remotes share one. *)
Definition registry_bijective (fg : FolderGroup) : Prop :=
  (∀ d, d ∈ p2p_folders_digests_ fg ↔ ∃ r, r ∈ remotes_ fg ∧ digest r = d)
  ∧ (∀ e, e ∈ p2p_folders_endpoints_ fg ↔ ∃ r, r ∈ remotes_ fg ∧ endpoint r = e)
  ∧ (∀ r1 r2, r1 ∈ remotes_ fg → r2 ∈ remotes_ fg →
       digest r1 = digest r2 → r1 = r2)
  ∧ (∀ r1 r2, r1 ∈ remotes_ fg → r2 ∈ remotes_ fg →
       endpoint r1 = endpoint r2 → r1 = r2).

(** The connections whose sender is the remote. *)
Definition subscriptions (remote : ptr) (fg : FolderGroup) : list Connection :=
  filter (λ c, sender c = remote_obj remote) (connections fg).

(** The effects an action adds to the log. *)
Definition effects_of (a : Action) (fg : FolderGroup) : list Effect :=
  drop (length (log fg)) (log (a fg)).

(** A call on one of the four transfer engines. *)
Definition engine_call (e : Effect) : bool :=
  match e with
  | on_downloader _ | on_uploader _ | on_meta_uploader _
  | on_meta_downloader _ => true
  | _ => false
  end.

(** The connections the constructor makes. *)
Definition own_connections : list Connection :=
  [ {| sender := meta_storage_obj; signal := MetaStorage_metaAdded;
       context := this; slot := slot_handle_indexed_meta |};
    {| sender := chunk_storage_obj; signal := ChunkStorage_chunkAdded;
       context := this; slot := slot_chunkAdded |};
    {| sender := downloader_obj; signal := Downloader_chunkDownloaded;
       context := chunk_storage_obj; slot := slot_put_chunk |};
    {| sender := state_pusher_obj; signal := QTimer_timeout;
       context := this; slot := slot_push_state |} ].

(** The remote a per-peer lambda has captured. *)
Definition slot_origin (sl : Slot) : option ptr :=
  match sl with
  | slot_handle_indexed_meta | slot_chunkAdded | slot_put_chunk
  | slot_push_state => None
  | slot_handshakeSuccess r | slot_rcvdChoke r | slot_rcvdUnchoke r
  | slot_rcvdInterested r | slot_rcvdNotInterested r | slot_rcvdHaveMeta r
  | slot_rcvdHaveChunk r | slot_rcvdMetaRequest r | slot_rcvdMetaReply r
  | slot_rcvdBlockRequest r | slot_rcvdBlockReply r => Some r
  end.

(** A connection made by [attach] or [handle_handshake]: its sender is the
    remote its slot has captured. *)
Definition peer_connection (c : Connection) : Prop :=
  ∃ r, sender c = remote_obj r ∧ slot_origin (slot c) = Some r.

Definition wiring (fg : FolderGroup) : Prop :=
  ∃ peers, connections fg = own_connections ++ peers
           ∧ Forall peer_connection peers.

(** Every [handshakeSuccess] of the run comes from a remote that is attached
    when it fires. *)
Fixpoint handshakes_while_attached (evs : list Event) (fg : FolderGroup) : bool :=
  match evs with
  | [] => true
  | ev :: evs' =>
      match ev with
      | signal_from (remote_obj r) handshakeSuccess =>
          bool_decide (r ∈ remotes_ fg)
      | _ => true
      end
      && handshakes_while_attached evs' (step ev fg)
  end.

(** Modelled from the spec: Uploader.cpp is not among the sources.  The spec
    (section 9) says of the source that it broadcasts HaveChunk to the remotes
    it is handed: [broadcast_chunk(peers, ct_hash)] sends [HaveChunk(ct_hash)]
    to every peer of [peers]. *)
Definition broadcast_chunk_sends (c : Uploader.call) : list (ptr * blob) :=
  match c with
  | Uploader.broadcast_chunk peers ct_hash => (λ p, (p, ct_hash)) <$> peers
  | _ => []
  end.

(** The [HaveChunk] messages an effect, and a log, send: (peer, ct_hash). *)
Definition have_chunk_of (e : Effect) : list (ptr * blob) :=
  match e with
  | on_uploader c => broadcast_chunk_sends c
  | _ => []
  end.

Definition have_chunk_sent (l : list Effect) : list (ptr * blob) :=
  flat_map have_chunk_of l.

(** How often the run has ChunkStorage emit [chunkAdded(ct_hash)]. *)
Definition is_chunkAdded (ct_hash : blob) (ev : Event) : bool :=
  match ev with
  | signal_from chunk_storage_obj (chunkAdded h) => bool_decide (h = ct_hash)
  | _ => false
  end.

Definition chunkAdded_count (ct_hash : blob) (evs : list Event) : nat :=
  length (filter (λ ev, is_chunkAdded ct_hash ev = true) evs).

(** The connections [handle_handshake(origin)] makes, in source order. *)
Definition handshake_connections (origin : ptr) : list Connection :=
  [ {| sender := remote_obj origin; signal := RemoteFolder_rcvdChoke;
       context := downloader_obj; slot := slot_rcvdChoke origin |};
    {| sender := remote_obj origin; signal := RemoteFolder_rcvdUnchoke;
       context := downloader_obj; slot := slot_rcvdUnchoke origin |};
    {| sender := remote_obj origin; signal := RemoteFolder_rcvdInterested;
       context := downloader_obj; slot := slot_rcvdInterested origin |};
    {| sender := remote_obj origin; signal := RemoteFolder_rcvdNotInterested;
       context := downloader_obj; slot := slot_rcvdNotInterested origin |};
    {| sender := remote_obj origin; signal := RemoteFolder_rcvdHaveMeta;
       context := meta_downloader_obj; slot := slot_rcvdHaveMeta origin |};
    {| sender := remote_obj origin; signal := RemoteFolder_rcvdHaveChunk;
       context := downloader_obj; slot := slot_rcvdHaveChunk origin |};
    {| sender := remote_obj origin; signal := RemoteFolder_rcvdMetaRequest;
       context := meta_uploader_obj; slot := slot_rcvdMetaRequest origin |};
    {| sender := remote_obj origin; signal := RemoteFolder_rcvdMetaReply;
       context := meta_downloader_obj; slot := slot_rcvdMetaReply origin |};
    {| sender := remote_obj origin; signal := RemoteFolder_rcvdBlockRequest;
       context := uploader_obj; slot := slot_rcvdBlockRequest origin |};
    {| sender := remote_obj origin; signal := RemoteFolder_rcvdBlockReply;
       context := downloader_obj; slot := slot_rcvdBlockReply origin |} ].

(** What no slot and no posted functor touches: the three indices of
    attached remotes and the stores' handles; connections and log only grow. *)
Definition frame (fg fg' : FolderGroup) : Prop :=
  params_ fg' = params_ fg
  ∧ meta_storage_ fg' = meta_storage_ fg
  ∧ remotes_ fg' = remotes_ fg
  ∧ p2p_folders_digests_ fg' = p2p_folders_digests_ fg
  ∧ p2p_folders_endpoints_ fg' = p2p_folders_endpoints_ fg
  ∧ (∃ cs, connections fg' = connections fg ++ cs ∧ Forall peer_connection cs)
  ∧ (∃ es, log fg' = log fg ++ es).

(** The registry invariant carried along a run. *)
Definition registry_inv (fg : FolderGroup) : Prop :=
  registry_bijective fg
  ∧ size (remotes_ fg) = size (p2p_folders_digests_ fg)
  ∧ size (remotes_ fg) = size (p2p_folders_endpoints_ fg).

(** The spec's sixth invariant and its cancellation rule, as they are
    worded: [detach(remote)] releases every subscription made for the remote,
    and afterwards no signal of the remote reaches a transfer engine. *)
Definition detach_releases (remote : ptr) (fg : FolderGroup) : Prop :=
  subscriptions remote (detach remote fg) = []
  ∧ ∀ s, Forall (λ e, engine_call e = false)
           (effects_of (deliver (remote_obj remote) s) (detach remote fg)).

(** What a run carries when handshakes only come from attached remotes. *)
Definition ready_inv (fg : FolderGroup) : Prop :=
  wiring fg ∧ remotes_ready_ fg ⊆ remotes_ fg.

(** What [handle_indexed_meta(smeta)] tells the Downloader and the
    MetaUploader, on the FolderGroup it runs on. *)
Definition indexed_meta_calls (fg : FolderGroup) (smeta : SignedMeta)
    : list Effect :=
  [ on_downloader
      (Downloader.notifyLocalMeta smeta
         (make_bitfield (chunk_storage_ fg) (meta smeta)));
    on_meta_uploader
      (MetaUploader.broadcast_meta (remotes fg) (path_revision (meta smeta))
         (make_bitfield (chunk_storage_ fg) (meta smeta))) ].

Definition is_broadcast_meta (e : Effect) : bool :=
  match e with
  | on_meta_uploader (MetaUploader.broadcast_meta _ _ _) => true
  | _ => false
  end.

(** The remote has had no handshake yet: the only signal of it that is
    connected is [handshakeSuccess]. *)
Definition first_handshake (origin : ptr) (fg : FolderGroup) : Prop :=
  Forall (λ c, signal c = RemoteFolder_handshakeSuccess)
    (subscriptions origin fg).

(** The slot [handle_handshake(origin)] connects to each signal. *)
Definition handshake_slot (origin : ptr) (n : SignalName) : list Slot :=
  match n with
  | RemoteFolder_rcvdChoke => [slot_rcvdChoke origin]
  | RemoteFolder_rcvdUnchoke => [slot_rcvdUnchoke origin]
  | RemoteFolder_rcvdInterested => [slot_rcvdInterested origin]
  | RemoteFolder_rcvdNotInterested => [slot_rcvdNotInterested origin]
  | RemoteFolder_rcvdHaveMeta => [slot_rcvdHaveMeta origin]
  | RemoteFolder_rcvdHaveChunk => [slot_rcvdHaveChunk origin]
  | RemoteFolder_rcvdMetaRequest => [slot_rcvdMetaRequest origin]
  | RemoteFolder_rcvdMetaReply => [slot_rcvdMetaReply origin]
  | RemoteFolder_rcvdBlockRequest => [slot_rcvdBlockRequest origin]
  | RemoteFolder_rcvdBlockReply => [slot_rcvdBlockReply origin]
  | _ => []
  end.

(** The spec's fifth testable invariant, first half, as it is worded: the
    peers that are sent [HaveChunk(ct_hash)] when ChunkStorage announces the
    chunk are all in the ready set at that moment. *)
Definition have_chunk_only_to_ready (ct_hash : blob) (fg : FolderGroup) : Prop :=
  ∀ p, (p, ct_hash)
         ∈ have_chunk_sent
             (effects_of (deliver chunk_storage_obj (chunkAdded ct_hash)) fg) →
       p ∈ remotes_ready_ fg.

(** How many times a log sends [HaveChunk(ct_hash)] to [p]. *)
Definition sent_count (p : ptr) (ct_hash : blob) (l : list Effect) : nat :=
  length (filter (λ m, m = (p, ct_hash)) (have_chunk_sent l)).

(** The log grows by effects that send no [HaveChunk]. *)
Definition quiet (fg fg' : FolderGroup) : Prop :=
  ∃ es, log fg' = log fg ++ es ∧ have_chunk_sent es = [].

(** The inbound protocol messages of a remote. *)
Definition is_message (s : Signal) : bool :=
  match s with
  | rcvdChoke | rcvdUnchoke | rcvdInterested | rcvdNotInterested
  | rcvdHaveMeta _ _ | rcvdHaveChunk _ | rcvdMetaRequest _
  | rcvdMetaReply _ _ | rcvdBlockRequest _ _ _ | rcvdBlockReply _ _ _ => true
  | _ => false
  end.

(** *** The atomic transitions of a run *)

(** [log_tag()]. *)
Definition log_tag (fg : FolderGroup) : string :=
  if negb (bool_decide (path (params_ fg) = EmptyString))
  then path (params_ fg) else system_path (params_ fg).

(** Effects that say nothing about tracking, attachment, the deferred
    advertisement or the published state. *)
Definition plain (e : Effect) : bool :=
  match e with
  | on_downloader (Downloader.trackRemote _)
  | on_downloader (Downloader.untrackRemote _)
  | on_meta_uploader (MetaUploader.handle_handshake _)
  | on_state_collector _
  | emitted _ _ => false
  | _ => true
  end.

(** A transition that only makes plain calls: the log grows by them, the
    chunk store may change, every other member stays. *)
Definition plain_step (fg fg' : FolderGroup) : Prop :=
  params_ fg' = params_ fg
  ∧ meta_storage_ fg' = meta_storage_ fg
  ∧ bandwidth_counter_ fg' = bandwidth_counter_ fg
  ∧ state_pusher_ fg' = state_pusher_ fg
  ∧ remotes_ fg' = remotes_ fg
  ∧ remotes_ready_ fg' = remotes_ready_ fg
  ∧ p2p_folders_endpoints_ fg' = p2p_folders_endpoints_ fg
  ∧ p2p_folders_digests_ fg' = p2p_folders_digests_ fg
  ∧ connections fg' = connections fg
  ∧ posted fg' = posted fg
  ∧ ∃ es, log fg' = log fg ++ es ∧ Forall (λ e, plain e = true) es.

(** What a run is made of.  The flag tells the transitions of an event-loop
    turn (a posted functor fires) from those of a call or a signal. *)
Inductive micro : bool → FolderGroup → FolderGroup → Prop :=
  | micro_plain fg fg' :
      plain_step fg fg' → micro false fg fg'
  | micro_push_state fg :
      micro false fg (push_state fg)
  | micro_handle_handshake origin fg :
      micro false fg (handle_handshake origin fg)
  | micro_attach remote fg :
      (attach remote fg).1 = true → micro false fg (attach remote fg).2
  | micro_detach remote fg :
      remote ∈ remotes_ fg → micro false fg (detach remote fg)
  | micro_go_through_index t rest fg :
      posted fg = t :: rest → task_functor t = go_through_index →
      micro true fg (event_loop_turn fg)
  | micro_meta_uploader_handshake t rest origin fg :
      posted fg = t :: rest →
      task_functor t = meta_uploader_handshake origin →
      micro true fg (event_loop_turn fg).

Definition is_loop_turn (ev : Event) : bool :=
  match ev with loop_turn => true | _ => false end.

(** The run has had an event-loop turn. *)
Definition has_loop_turn (evs : list Event) : bool := existsb is_loop_turn evs.

(** *** What the log tells *)

(** The Downloader's latest instruction about [p]: track (true) or untrack
    or none (false). *)
Definition tracking (p : ptr) (b : bool) (e : Effect) : bool :=
  match e with
  | on_downloader (Downloader.trackRemote q) =>
      if bool_decide (q = p) then true else b
  | on_downloader (Downloader.untrackRemote q) =>
      if bool_decide (q = p) then false else b
  | _ => b
  end.

Definition tracked (p : ptr) (l : list Effect) : bool :=
  foldl (tracking p) false l.

(** The latest of [attached(p)] and [detached(p)] emitted. *)
Definition announcing (p : ptr) (b : bool) (e : Effect) : bool :=
  match e with
  | emitted (attached q) _ => if bool_decide (q = p) then true else b
  | emitted (detached q) _ => if bool_decide (q = p) then false else b
  | _ => b
  end.

Definition announced (p : ptr) (l : list Effect) : bool :=
  foldl (announcing p) false l.

Definition is_trackRemote (p : ptr) (e : Effect) : bool :=
  match e with
  | on_downloader (Downloader.trackRemote q) => bool_decide (q = p)
  | _ => false
  end.

Definition is_meta_handshake (p : ptr) (e : Effect) : bool :=
  match e with
  | on_meta_uploader (MetaUploader.handle_handshake q) => bool_decide (q = p)
  | _ => false
  end.

Definition is_pending_handshake (p : ptr) (t : Task) : bool :=
  match task_functor t with
  | meta_uploader_handshake q => bool_decide (q = p)
  | go_through_index => false
  end.

Definition is_go_through_index (t : Task) : bool :=
  match task_functor t with
  | go_through_index => true
  | meta_uploader_handshake _ => false
  end.

(** The folder id a state-collector call is keyed by is [id]. *)
Definition keyed_by (id : QByteArray) (e : Effect) : bool :=
  match e with
  | on_state_collector (StateCollector.folder_state_set k _ _) =>
      bool_decide (k = id)
  | on_state_collector (StateCollector.folder_state_purge k) =>
      bool_decide (k = id)
  | _ => true
  end.

(** How many elements of a list pass a test. *)
Definition count_if {A} (f : A → bool) (l : list A) : nat :=
  length (filter (λ x, f x = true) l).

(** The queue of a FolderGroup that has had no event-loop turn yet ([false]):
    the index replay first, then deferred advertisements; and afterwards
    ([true]): deferred advertisements only. *)
Definition replay_inv (turned : bool) (fg : FolderGroup) : Prop :=
  if turned
  then Forall (λ t, is_go_through_index t = false) (posted fg)
  else ∃ hs, posted fg
             = {| task_context := this; task_functor := go_through_index |} :: hs
             ∧ Forall (λ t, is_go_through_index t = false) hs.

(** The remote an engine call is about, for the calls that take one. *)
Definition effect_remote (e : Effect) : option ptr :=
  match e with
  | on_downloader c =>
      match c with
      | Downloader.trackRemote r | Downloader.untrackRemote r
      | Downloader.handleChoke r | Downloader.handleUnchoke r
      | Downloader.notifyRemoteChunk r _ | Downloader.putBlock _ _ _ r => Some r
      | _ => None
      end
  | on_uploader c =>
      match c with
      | Uploader.handle_interested r | Uploader.handle_not_interested r
      | Uploader.handle_block_request r _ _ _ => Some r
      | _ => None
      end
  | on_meta_uploader c =>
      match c with
      | MetaUploader.handle_meta_request r _
      | MetaUploader.handle_handshake r => Some r
      | _ => None
      end
  | on_meta_downloader c =>
      match c with
      | MetaDownloader.handle_have_meta r _ _
      | MetaDownloader.handle_meta_reply r _ _ => Some r
      end
  | _ => None
  end.

(** The effect is about no remote but [q]. *)
Definition about_only (q : ptr) (e : Effect) : bool :=
  match effect_remote e with
  | Some r => bool_decide (r = q)
  | None => true
  end.

(** An emission of [attached(p)] or [detached(p)] happens on a registry
    that holds [p], its digest and its endpoint. *)
Definition emitted_on_registered (e : Effect) : Prop :=
  match e with
  | emitted (attached p) seen | emitted (detached p) seen =>
      p ∈ seen_remotes seen
      ∧ digest p ∈ seen_digests seen
      ∧ endpoint p ∈ seen_endpoints seen
  | _ => True
  end.

(** ** Properties *)

(** Section variables a proof has no use for are put aside first. *)
Ltac trim :=
  try clear collect_state; try clear displayName; try clear endpoint;
  try clear digest; try clear heartbeat_json; try clear put_chunk;
  try clear make_bitfield; try clear getMeta.

(** Actions are run call-by-value on a FolderGroup given by its members, so
    that a member update is evaluated once and not once per later read. *)
Ltac run_actions :=
  cbv beta iota zeta delta
    [seq effect emit connect singleShot registry folderid remotes
     set_log set_posted set_connections set_remotes_ set_remotes_ready_
     set_p2p_folders_digests_ set_p2p_folders_endpoints_ set_chunk_storage_
     set_bandwidth_counter_ set_state_pusher_
     params_ meta_storage_ chunk_storage_ bandwidth_counter_ state_pusher_
     remotes_ remotes_ready_ p2p_folders_endpoints_ p2p_folders_digests_
     connections posted log interval active].

(** *** The constructor *)

Lemma FolderGroup_new_eq params ms cs bc :
  FolderGroup_new params ms cs bc =
    mkFolderGroup params ms cs bc {| interval := 1000; active := true |}
      ∅ ∅ ∅ ∅ own_connections
      [{| task_context := this; task_functor := go_through_index |}]
      [LOGFUNC "FolderGroup";
       QDir_mkpath (path params);
       QDir_mkpath (system_path params);
       LOGD ["New folder:"; "Key type=";
             String (Ascii.ascii_of_N (get_type (secret params))) EmptyString;
             "Path="; path params; "System path="; system_path params];
       on_state_collector
         (StateCollector.folder_state_set
            (conv_bytearray (get_Hash (secret params))) "secret"
            (QJsonString (secret_string (secret params))))].
Proof. unfold FolderGroup_new, own_connections. run_actions. reflexivity. Qed.

(** *** attach *)

Lemma attach_refused remote fg :
  (attach remote fg).1 = false → (attach remote fg).2 = fg.
Proof. unfold attach. by case (_ || _). Qed.

Lemma attach_admits_iff remote fg :
  (attach remote fg).1 = true ↔
    (remote ∉ remotes_ fg)
    ∧ (digest remote ∉ p2p_folders_digests_ fg)
    ∧ (endpoint remote ∉ p2p_folders_endpoints_ fg).
Proof.
  trim.
  unfold attach. repeat case_bool_decide; cbn; naive_solver.
Qed.

Lemma attach_admitted remote fg :
  (attach remote fg).1 = true →
  (attach remote fg).2 =
    mkFolderGroup (params_ fg) (meta_storage_ fg) (chunk_storage_ fg)
      (bandwidth_counter_ fg) (state_pusher_ fg)
      ({[remote]} ∪ remotes_ fg) (remotes_ready_ fg)
      ({[endpoint remote]} ∪ p2p_folders_endpoints_ fg)
      ({[digest remote]} ∪ p2p_folders_digests_ fg)
      (connections fg ++
         [{| sender := remote_obj remote;
             signal := RemoteFolder_handshakeSuccess;
             context := this;
             slot := slot_handshakeSuccess remote |}])
      (posted fg)
      (log fg ++
         [LOGD ["Attached remote "; displayName remote];
          emitted (attached remote)
            {| seen_remotes := {[remote]} ∪ remotes_ fg;
               seen_endpoints := {[endpoint remote]} ∪ p2p_folders_endpoints_ fg;
               seen_digests := {[digest remote]} ∪ p2p_folders_digests_ fg;
               seen_ready := remotes_ready_ fg |}]).
Proof.
  unfold attach. case (_ || _); [done|]. intros _.
  destruct fg. run_actions. by rewrite <- !app_assoc.
Qed.

Lemma attach_subscribes remote fg :
  (attach remote fg).1 = true →
  slot_handshakeSuccess remote
    ∈ receivers (remote_obj remote) handshakeSuccess (attach remote fg).2.
Proof.
  trim.
  intros Hadm. rewrite (attach_admitted _ _ Hadm).
  unfold receivers; cbn. rewrite filter_app, fmap_app.
  apply elem_of_app; right.
  rewrite filter_cons_True by done. cbn. set_solver.
Qed.

(** C1: [attach(p)] returns true exactly when the handle, the digest and the
    endpoint of [p] are all absent from the registry.  When it returns true,
    [p], its digest and its endpoint have been inserted into [remotes_],
    [p2p_folders_digests_] and [p2p_folders_endpoints_], one connection from
    [p]'s [handshakeSuccess] to [handle_handshake(p)] has been added (so an
    emission of that signal by [p] now activates it), and [attached(p)] has
    been emitted on the new registry.  When it returns false the FolderGroup
    is left as it was, connections included; and a second [attach(p)] after
    a successful one returns false and changes nothing. *)
Theorem attach_spec (remote : ptr) (fg : FolderGroup) :
  ((attach remote fg).1 = true ↔
     (remote ∉ remotes_ fg)
     ∧ (digest remote ∉ p2p_folders_digests_ fg)
     ∧ (endpoint remote ∉ p2p_folders_endpoints_ fg))
  ∧ ((attach remote fg).1 = true →
       let fg' := (attach remote fg).2 in
       remotes_ fg' = {[remote]} ∪ remotes_ fg
       ∧ p2p_folders_digests_ fg' = {[digest remote]} ∪ p2p_folders_digests_ fg
       ∧ p2p_folders_endpoints_ fg'
         = {[endpoint remote]} ∪ p2p_folders_endpoints_ fg
       ∧ remotes_ready_ fg' = remotes_ready_ fg
       ∧ connections fg'
         = connections fg ++
             [{| sender := remote_obj remote;
                 signal := RemoteFolder_handshakeSuccess;
                 context := this;
                 slot := slot_handshakeSuccess remote |}]
       ∧ slot_handshakeSuccess remote
           ∈ receivers (remote_obj remote) handshakeSuccess fg'
       ∧ posted fg' = posted fg
       ∧ log fg'
         = log fg ++
             [LOGD ["Attached remote "; displayName remote];
              emitted (attached remote) (registry fg')])
  ∧ ((attach remote fg).1 = false → (attach remote fg).2 = fg)
  ∧ ((attach remote fg).1 = true →
       attach remote (attach remote fg).2 = (false, (attach remote fg).2)).
Proof.
  trim.
  split; [apply attach_admits_iff|].
  split; [|split; [apply attach_refused|]].
  - intros Hadm. cbn zeta. pose proof (attach_subscribes _ _ Hadm) as Hsub.
    revert Hsub. rewrite (attach_admitted _ _ Hadm). cbn.
    intros Hsub. repeat split; done.
  - intros Hadm.
    assert (remote ∈ remotes_ (attach remote fg).2) as Hin.
    { rewrite (attach_admitted _ _ Hadm). cbn. set_solver. }
    set (fg' := (attach remote fg).2) in *.
    unfold attach at 1. by rewrite (bool_decide_eq_true_2 _ Hin).
Qed.

(** *** detach *)

Lemma detach_not_attached remote fg :
  remote ∉ remotes_ fg → detach remote fg = fg.
Proof. intros H. unfold detach. by rewrite (bool_decide_eq_false_2 _ H). Qed.

Lemma detach_attached remote fg :
  remote ∈ remotes_ fg →
  detach remote fg =
    mkFolderGroup (params_ fg) (meta_storage_ fg) (chunk_storage_ fg)
      (bandwidth_counter_ fg) (state_pusher_ fg)
      (remotes_ fg ∖ {[remote]}) (remotes_ready_ fg ∖ {[remote]})
      (p2p_folders_endpoints_ fg ∖ {[endpoint remote]})
      (p2p_folders_digests_ fg ∖ {[digest remote]})
      (connections fg) (posted fg)
      (log fg ++
         [emitted (detached remote) (registry fg);
          on_downloader (Downloader.untrackRemote remote);
          LOGD ["Detached remote "; displayName remote]]).
Proof.
  intros H. unfold detach. rewrite (bool_decide_eq_true_2 _ H).
  destruct fg. run_actions. by rewrite <- !app_assoc.
Qed.

Lemma detach_removes remote fg : remote ∉ remotes_ (detach remote fg).
Proof.
  trim.
  destruct (decide (remote ∈ remotes_ fg)) as [Hin|Hout].
  - rewrite detach_attached by done. cbn. set_solver.
  - by rewrite detach_not_attached.
Qed.

(** C2: on a remote that is not attached [detach] changes nothing, so a
    second [detach(p)] is a no-op.  On an attached remote, [detached(p)] is
    emitted first, on the registry as it was when [detach] was entered; then
    the Downloader is told to untrack [p]; then the digest, the endpoint and
    the handle of [p] are removed from [p2p_folders_digests_],
    [p2p_folders_endpoints_], [remotes_] and [remotes_ready_]. *)
Theorem detach_spec (remote : ptr) (fg : FolderGroup) :
  (remote ∉ remotes_ fg → detach remote fg = fg)
  ∧ detach remote (detach remote fg) = detach remote fg
  ∧ (remote ∈ remotes_ fg →
       let fg' := detach remote fg in
       log fg'
       = log fg ++
           [emitted (detached remote) (registry fg);
            on_downloader (Downloader.untrackRemote remote);
            LOGD ["Detached remote "; displayName remote]]
       ∧ remote ∈ seen_remotes (registry fg)
       ∧ p2p_folders_digests_ fg'
         = p2p_folders_digests_ fg ∖ {[digest remote]}
       ∧ p2p_folders_endpoints_ fg'
         = p2p_folders_endpoints_ fg ∖ {[endpoint remote]}
       ∧ remotes_ fg' = remotes_ fg ∖ {[remote]}
       ∧ remotes_ready_ fg' = remotes_ready_ fg ∖ {[remote]}
       ∧ (digest remote ∉ p2p_folders_digests_ fg')
       ∧ (endpoint remote ∉ p2p_folders_endpoints_ fg')
       ∧ (remote ∉ remotes_ fg')
       ∧ (remote ∉ remotes_ready_ fg')).
Proof.
  trim.
  split; [apply detach_not_attached|].
  split; [apply detach_not_attached, detach_removes|].
  intros Hin. cbn zeta. rewrite detach_attached by done. cbn.
  repeat split; try done; set_solver.
Qed.

(** *** What the handlers compute *)

Lemma handle_indexed_meta_eq smeta fg :
  handle_indexed_meta smeta fg =
    set_log
      (log fg ++
         [on_downloader
            (Downloader.notifyLocalMeta smeta
               (make_bitfield (chunk_storage_ fg) (meta smeta)));
          on_meta_uploader
            (MetaUploader.broadcast_meta (remotes fg)
               (path_revision (meta smeta))
               (make_bitfield (chunk_storage_ fg) (meta smeta)))]) fg.
Proof.
  unfold handle_indexed_meta. destruct fg. run_actions.
  by rewrite <- !app_assoc.
Qed.

Lemma handle_handshake_eq origin fg :
  handle_handshake origin fg =
    mkFolderGroup (params_ fg) (meta_storage_ fg) (chunk_storage_ fg)
      (bandwidth_counter_ fg) (state_pusher_ fg)
      (remotes_ fg) ({[origin]} ∪ remotes_ready_ fg)
      (p2p_folders_endpoints_ fg) (p2p_folders_digests_ fg)
      (connections fg ++ handshake_connections origin)
      (posted fg ++
         [{| task_context := meta_uploader_obj;
             task_functor := meta_uploader_handshake origin |}])
      (log fg ++ [on_downloader (Downloader.trackRemote origin)]).
Proof.
  unfold handle_handshake, handshake_connections. destruct fg. run_actions.
  by rewrite <- !app_assoc.
Qed.

Lemma push_state_eq fg :
  push_state fg =
    mkFolderGroup (params_ fg) (meta_storage_ fg) (chunk_storage_ fg)
      (heartbeat_json (bandwidth_counter_ fg)).2 (state_pusher_ fg)
      (remotes_ fg) (remotes_ready_ fg)
      (p2p_folders_endpoints_ fg) (p2p_folders_digests_ fg)
      (connections fg) (posted fg)
      (log fg ++
         [on_state_collector
            (StateCollector.folder_state_set (folderid fg) "peers"
               (QJsonArray (map collect_state (elements (remotes_ fg)))));
          on_state_collector
            (StateCollector.folder_state_set (folderid fg) "traffic_stats"
               (heartbeat_json (bandwidth_counter_ fg)).1)]).
Proof.
  unfold push_state. destruct fg. run_actions.
  destruct (heartbeat_json _) as [json counter]. cbn.
  by rewrite <- !app_assoc.
Qed.

(** *** Frames *)

Lemma frame_refl fg : frame fg fg.
Proof.
  repeat split; try done.
  - exists []. by rewrite app_nil_r.
  - exists []. by rewrite app_nil_r.
Qed.

Lemma frame_trans fg1 fg2 fg3 : frame fg1 fg2 → frame fg2 fg3 → frame fg1 fg3.
Proof.
  intros (Hp & Hm & Hr & Hd & He & (cs & Hc & Hcs) & (es & Hl))
         (Hp' & Hm' & Hr' & Hd' & He' & (cs' & Hc' & Hcs') & (es' & Hl')).
  repeat split; try congruence.
  - exists (cs ++ cs'). rewrite Hc', Hc, app_assoc. split; [done|].
    by apply Forall_app.
  - exists (es ++ es'). by rewrite Hl', Hl, app_assoc.
Qed.

Lemma frame_effect e fg : frame fg (effect e fg).
Proof.
  destruct fg. run_actions. repeat split; try done.
  - exists []. by rewrite app_nil_r.
  - by eexists.
Qed.

Lemma frame_set_log es fg : frame fg (set_log (log fg ++ es) fg).
Proof.
  destruct fg. run_actions. repeat split; try done.
  - exists []. by rewrite app_nil_r.
  - by eexists.
Qed.

Lemma handshake_connections_peer origin :
  Forall peer_connection (handshake_connections origin).
Proof. repeat constructor; by exists origin. Qed.

Lemma frame_handle_indexed_meta smeta fg : frame fg (handle_indexed_meta smeta fg).
Proof. rewrite handle_indexed_meta_eq. apply frame_set_log. Qed.

Lemma frame_handle_handshake origin fg : frame fg (handle_handshake origin fg).
Proof.
  rewrite handle_handshake_eq. repeat split; try done; cbn.
  - eexists. split; [done|]. apply handshake_connections_peer.
  - by eexists.
Qed.

Lemma frame_push_state fg : frame fg (push_state fg).
Proof.
  rewrite push_state_eq. repeat split; try done; cbn.
  - exists []. by rewrite app_nil_r.
  - by eexists.
Qed.

Lemma frame_run_slot sl s fg : frame fg (run_slot sl s fg).
Proof.
  destruct sl, s; cbn [run_slot];
    first [ apply frame_refl | apply frame_effect
          | apply frame_handle_indexed_meta | apply frame_handle_handshake
          | apply frame_push_state | idtac ].
  all: destruct fg; run_actions; repeat split; try done; cbn.
  all: first [ exists []; by rewrite app_nil_r
             | rewrite <- ?app_assoc; by eexists ].
Qed.

Lemma frame_foldl {A} (f : FolderGroup → A → FolderGroup) (l : list A) fg :
  (∀ fg x, frame fg (f fg x)) → frame fg (foldl f fg l).
Proof.
  intros Hf. revert fg. induction l as [|x l IH]; intros fg; cbn.
  - apply frame_refl.
  - eapply frame_trans; [apply Hf|apply IH].
Qed.

Lemma frame_deliver snd_ s fg : frame fg (deliver snd_ s fg).
Proof. unfold deliver. apply frame_foldl. intros. apply frame_run_slot. Qed.

Lemma frame_event_loop_turn fg : frame fg (event_loop_turn fg).
Proof.
  unfold event_loop_turn. destruct (posted fg) as [|t rest] eqn:Hp.
  - apply frame_refl.
  - eapply frame_trans with (fg2 := set_posted rest fg).
    + destruct fg; cbn. repeat split; try done.
      * exists []. by rewrite app_nil_r.
      * exists []. by rewrite app_nil_r.
    + destruct (task_functor t); cbn [run_functor].
      * apply frame_foldl. intros. apply frame_handle_indexed_meta.
      * apply frame_effect.
Qed.

(** *** The registry along a run *)

Lemma registry_inv_frame fg fg' : frame fg fg' → registry_inv fg → registry_inv fg'.
Proof.
  intros (_ & _ & Hr & Hd & He & _). unfold registry_inv, registry_bijective.
  by rewrite Hr, Hd, He.
Qed.

Lemma registry_inv_new params ms cs bc :
  registry_inv (FolderGroup_new params ms cs bc).
Proof.
  rewrite FolderGroup_new_eq. unfold registry_inv, registry_bijective. cbn.
  repeat split; set_solver.
Qed.

Lemma registry_inv_attach remote fg :
  registry_inv fg → registry_inv (attach remote fg).2.
Proof.
  trim.
  intros Hinv. destruct ((attach remote fg).1) eqn:Hadm.
  - rewrite (attach_admitted _ _ Hadm).
    apply attach_admits_iff in Hadm as (Hr & Hd & He).
    destruct Hinv as ((Hdig & Hend & Hinjd & Hinje) & Hsd & Hse).
    unfold registry_inv, registry_bijective. cbn. repeat split.
    + intros [->%elem_of_singleton|(r & ? & ?)%Hdig]%elem_of_union.
      * exists remote. set_solver.
      * exists r. set_solver.
    + intros (r & [->%elem_of_singleton|Hin]%elem_of_union & <-);
        [set_solver|].
      apply elem_of_union; right. apply Hdig. eauto.
    + intros [->%elem_of_singleton|(r & ? & ?)%Hend]%elem_of_union.
      * exists remote. set_solver.
      * exists r. set_solver.
    + intros (r & [->%elem_of_singleton|Hin]%elem_of_union & <-);
        [set_solver|].
      apply elem_of_union; right. apply Hend. eauto.
    + intros r1 r2 [->%elem_of_singleton|H1]%elem_of_union
        [->%elem_of_singleton|H2]%elem_of_union Heq; try done.
      * destruct Hd. apply Hdig. exists r2. by split.
      * destruct Hd. apply Hdig. exists r1. by split.
      * by apply Hinjd.
    + intros r1 r2 [->%elem_of_singleton|H1]%elem_of_union
        [->%elem_of_singleton|H2]%elem_of_union Heq; try done.
      * destruct He. apply Hend. exists r2. by split.
      * destruct He. apply Hend. exists r1. by split.
      * by apply Hinje.
    + rewrite !size_union, !size_singleton by set_solver. lia.
    + rewrite !size_union, !size_singleton by set_solver. lia.
  - by rewrite attach_refused.
Qed.

Lemma registry_inv_detach remote fg :
  registry_inv fg → registry_inv (detach remote fg).
Proof.
  intros Hinv. destruct (decide (remote ∈ remotes_ fg)) as [Hin|Hout];
    [|by rewrite detach_not_attached].
  rewrite detach_attached by done.
  destruct Hinv as ((Hdig & Hend & Hinjd & Hinje) & Hsd & Hse).
  assert (digest remote ∈ p2p_folders_digests_ fg) as Hd
    by (apply Hdig; eauto).
  assert (endpoint remote ∈ p2p_folders_endpoints_ fg) as He
    by (apply Hend; eauto).
  unfold registry_inv, registry_bijective. cbn. repeat split.
  - intros [(r & Hr & <-)%Hdig Hne]%elem_of_difference.
    exists r. split; [|done]. apply elem_of_difference. split; [done|].
    intros ->%elem_of_singleton. set_solver.
  - intros (r & [Hr Hne]%elem_of_difference & <-).
    apply elem_of_difference. split; [apply Hdig; eauto|].
    intros Heq%elem_of_singleton. apply Hne, elem_of_singleton.
    by apply Hinjd.
  - intros [(r & Hr & <-)%Hend Hne]%elem_of_difference.
    exists r. split; [|done]. apply elem_of_difference. split; [done|].
    intros ->%elem_of_singleton. set_solver.
  - intros (r & [Hr Hne]%elem_of_difference & <-).
    apply elem_of_difference. split; [apply Hend; eauto|].
    intros Heq%elem_of_singleton. apply Hne, elem_of_singleton.
    by apply Hinje.
  - intros r1 r2 [H1 _]%elem_of_difference [H2 _]%elem_of_difference.
    by apply Hinjd.
  - intros r1 r2 [H1 _]%elem_of_difference [H2 _]%elem_of_difference.
    by apply Hinje.
  - rewrite !size_difference, !size_singleton by set_solver. lia.
  - rewrite !size_difference, !size_singleton by set_solver. lia.
Qed.

Lemma registry_inv_step ev fg : registry_inv fg → registry_inv (step ev fg).
Proof.
  destruct ev; cbn.
  - apply registry_inv_attach.
  - apply registry_inv_detach.
  - apply registry_inv_frame, frame_deliver.
  - apply registry_inv_frame, frame_event_loop_turn.
Qed.

Lemma run_invariant (Inv : FolderGroup → Prop) evs fg :
  (∀ ev fg, Inv fg → Inv (step ev fg)) → Inv fg → Inv (run evs fg).
Proof.
  intros Hstep. unfold run. revert fg.
  induction evs as [|ev evs IH]; intros fg Hfg; cbn; [done|].
  by apply IH, Hstep.
Qed.

(** C3, amended: in every state reached from a new FolderGroup by attach and
    detach calls (and by signals and event-loop turns between them), every
    attached remote has its digest in [p2p_folders_digests_] and its endpoint
    in [p2p_folders_endpoints_]; every registered digest (endpoint) is that
    of an attached remote; no two attached remotes share a digest or an
    endpoint; so the three indices have the same size.  The digest or the
    endpoint of a remote that is not attached may still be registered, for
    another remote. *)
Theorem registry_reachable (params : FolderParams) (ms : MetaStorage)
    (cs : ChunkStorage) (bc : BandwidthCounter) (evs : list Event) :
  let fg := run evs (FolderGroup_new params ms cs bc) in
  (∀ r, r ∈ remotes_ fg →
        digest r ∈ p2p_folders_digests_ fg
        ∧ endpoint r ∈ p2p_folders_endpoints_ fg)
  ∧ registry_bijective fg
  ∧ size (remotes_ fg) = size (p2p_folders_digests_ fg)
  ∧ size (remotes_ fg) = size (p2p_folders_endpoints_ fg).
Proof.
  cbn zeta.
  pose proof (run_invariant registry_inv evs _ registry_inv_step
                (registry_inv_new params ms cs bc)) as (Hbij & Hsd & Hse).
  split; [|done].
  destruct Hbij as (Hdig & Hend & _). intros r Hr. split.
  - apply Hdig. eauto.
  - apply Hend. eauto.
Qed.

(** *** The connection table along a run *)

Lemma wiring_new params ms cs bc : wiring (FolderGroup_new params ms cs bc).
Proof.
  rewrite FolderGroup_new_eq. exists []. split; [|constructor].
  cbn [connections]. by rewrite (app_nil_r own_connections).
Qed.

Lemma wiring_frame fg fg' : frame fg fg' → wiring fg → wiring fg'.
Proof.
  intros (_ & _ & _ & _ & _ & (cs & Hc & Hcs) & _) (peers & Hp & Hpeers).
  exists (peers ++ cs). rewrite Hc, Hp, app_assoc. split; [done|].
  by apply Forall_app.
Qed.

Lemma wiring_attach remote fg : wiring fg → wiring (attach remote fg).2.
Proof.
  intros (peers & Hp & Hpeers). destruct ((attach remote fg).1) eqn:Hadm.
  - rewrite (attach_admitted _ _ Hadm). unfold wiring; cbn.
    eexists (peers ++ [_]). rewrite Hp, <- app_assoc. split; [done|].
    apply Forall_app. split; [done|]. constructor; [|constructor].
    by exists remote.
  - rewrite attach_refused by done. by exists peers.
Qed.

Lemma wiring_detach remote fg : wiring fg → wiring (detach remote fg).
Proof.
  intros Hw. destruct (decide (remote ∈ remotes_ fg)) as [Hin|Hout].
  - by rewrite detach_attached.
  - by rewrite detach_not_attached.
Qed.

Lemma wiring_step ev fg : wiring fg → wiring (step ev fg).
Proof.
  destruct ev; cbn.
  - apply wiring_attach.
  - apply wiring_detach.
  - apply wiring_frame, frame_deliver.
  - apply wiring_frame, frame_event_loop_turn.
Qed.

(** Under [wiring], a per-peer slot is only activated by its own remote. *)
Lemma receivers_origin snd_ s sl r fg :
  wiring fg → sl ∈ receivers snd_ s fg → slot_origin sl = Some r →
  snd_ = remote_obj r.
Proof.
  intros (peers & Hp & Hpeers) Hin Ho. unfold receivers in Hin.
  apply list_elem_of_fmap in Hin as (c & -> & Hc).
  apply list_elem_of_filter in Hc as [[<- _] Hc].
  rewrite Hp in Hc. apply elem_of_app in Hc as [Hc|Hc].
  - unfold own_connections in Hc. set_unfold in Hc.
    destruct Hc as [->| [->| [->| [->|[]]]]]; discriminate.
  - rewrite Forall_forall in Hpeers. destruct (Hpeers c Hc) as (r' & Hs & Ho').
    congruence.
Qed.

(** Under [wiring], the signals of the components activate the slots the
    constructor connected, and nothing else. *)
Lemma receivers_own snd_ s fg :
  wiring fg → (∀ r, snd_ ≠ remote_obj r) →
  receivers snd_ s fg =
    slot <$> filter (λ c, sender c = snd_ ∧ signal c = signal_name s)
               own_connections.
Proof.
  intros (peers & Hp & Hpeers) Hne. unfold receivers.
  rewrite Hp, filter_app, fmap_app.
  replace (filter _ peers) with (@nil Connection); [by rewrite app_nil_r|].
  symmetry. clear Hp.
  induction Hpeers as [|c peers (r & Hs & _) _ IH]; [done|].
  rewrite filter_cons_False; [exact IH|].
  intros [Heq _]. apply (Hne r). congruence.
Qed.

(** *** detach and the subscriptions *)

Lemma detach_connections remote fg :
  connections (detach remote fg) = connections fg.
Proof.
  destruct (decide (remote ∈ remotes_ fg)) as [Hin|Hout].
  - by rewrite detach_attached.
  - by rewrite detach_not_attached.
Qed.

Lemma detach_posted remote fg : posted (detach remote fg) = posted fg.
Proof.
  destruct (decide (remote ∈ remotes_ fg)) as [Hin|Hout].
  - by rewrite detach_attached.
  - by rewrite detach_not_attached.
Qed.

Lemma ready_mono_run_slot sl s fg :
  remotes_ready_ fg ⊆ remotes_ready_ (run_slot sl s fg).
Proof.
  trim.
  destruct sl, s; cbn [run_slot];
    try rewrite handle_indexed_meta_eq; try rewrite handle_handshake_eq;
    try rewrite push_state_eq; try (destruct fg; run_actions); set_solver.
Qed.

Lemma ready_mono_foldl s l fg :
  remotes_ready_ fg ⊆ remotes_ready_ (foldl (λ fg sl, run_slot sl s fg) fg l).
Proof.
  revert fg. induction l as [|sl l IH]; intros fg; cbn; [done|].
  etrans; [apply ready_mono_run_slot|apply IH].
Qed.

Lemma effects_of_app (a : Action) fg es :
  log (a fg) = log fg ++ es → effects_of a fg = es.
Proof. intros H. unfold effects_of. by rewrite H, drop_app_length. Qed.

Lemma deliver_handshake_in snd_ remote fg :
  slot_handshakeSuccess remote ∈ receivers snd_ handshakeSuccess fg →
  remote ∈ remotes_ready_ (deliver snd_ handshakeSuccess fg)
  ∧ on_downloader (Downloader.trackRemote remote)
      ∈ effects_of (deliver snd_ handshakeSuccess) fg.
Proof.
  trim.
  intros (l1 & l2 & Hl)%list_elem_of_split.
  unfold effects_of, deliver. rewrite Hl, foldl_app. cbn [foldl run_slot].
  set (fg1 := foldl _ fg l1).
  assert (∃ es, log fg1 = log fg ++ es) as (es1 & H1).
  { apply (frame_foldl (λ fg sl, run_slot sl handshakeSuccess fg)).
    intros. apply frame_run_slot. }
  set (fg2 := handle_handshake remote fg1).
  assert (∃ es, log (foldl (λ fg sl, run_slot sl handshakeSuccess fg) fg2 l2)
                = log fg2 ++ es) as (es2 & H2).
  { apply (frame_foldl (λ fg sl, run_slot sl handshakeSuccess fg)).
    intros. apply frame_run_slot. }
  split.
  - apply (ready_mono_foldl handshakeSuccess l2 fg2).
    unfold fg2. rewrite handle_handshake_eq. cbn. set_solver.
  - rewrite H2. unfold fg2. rewrite handle_handshake_eq. cbn [log].
    rewrite H1, <- !app_assoc, drop_app_length. set_solver.
Qed.

(** C4, amended: [detach(p)] releases no subscription.  The connection table
    and the posted tasks are what they were before the call, so every signal
    of [p] still activates the slots it activated before.  In particular,
    after a successful [attach(p)] and a [detach(p)], [p]'s [handshakeSuccess]
    still runs [handle_handshake(p)]: the Downloader is told to track [p] and
    [p] enters [remotes_ready_]. *)
Theorem detach_keeps_subscriptions (remote : ptr) (fg : FolderGroup) :
  connections (detach remote fg) = connections fg
  ∧ posted (detach remote fg) = posted fg
  ∧ subscriptions remote (detach remote fg) = subscriptions remote fg
  ∧ (∀ s, receivers (remote_obj remote) s (detach remote fg)
          = receivers (remote_obj remote) s fg)
  ∧ ((attach remote fg).1 = true →
       let fg' := detach remote (attach remote fg).2 in
       slot_handshakeSuccess remote
         ∈ receivers (remote_obj remote) handshakeSuccess fg'
       ∧ on_downloader (Downloader.trackRemote remote)
           ∈ effects_of (deliver (remote_obj remote) handshakeSuccess) fg'
       ∧ remote ∈ remotes_ready_
                    (deliver (remote_obj remote) handshakeSuccess fg')).
Proof.
  pose proof (detach_connections remote fg) as Hc.
  split; [done|]. split; [apply detach_posted|].
  split; [unfold subscriptions; by rewrite Hc|].
  split; [intros s; unfold receivers; by rewrite Hc|].
  intros Hadm. cbn zeta.
  assert (slot_handshakeSuccess remote
            ∈ receivers (remote_obj remote) handshakeSuccess
                (detach remote (attach remote fg).2)) as Hin.
  { unfold receivers. rewrite detach_connections.
    by apply attach_subscribes. }
  split; [done|].
  destruct (deliver_handshake_in _ _ _ Hin). by split.
Qed.

(** *** Readiness along a run *)

Lemma ready_run_slot sl s fg (R : gset ptr) :
  (∀ r, s = handshakeSuccess → sl = slot_handshakeSuccess r → r ∈ R) →
  remotes_ready_ (run_slot sl s fg) ⊆ remotes_ready_ fg ∪ R.
Proof.
  trim.
  intros HR.
  destruct sl, s; cbn [run_slot];
    try rewrite handle_indexed_meta_eq; try rewrite push_state_eq;
    try (rewrite handle_handshake_eq; cbn;
         specialize (HR _ eq_refl eq_refl); set_solver);
    try (destruct fg; run_actions); set_solver.
Qed.

Lemma ready_foldl s l fg (R : gset ptr) :
  (∀ sl r, sl ∈ l → s = handshakeSuccess → sl = slot_handshakeSuccess r → r ∈ R) →
  remotes_ready_ (foldl (λ fg sl, run_slot sl s fg) fg l) ⊆ remotes_ready_ fg ∪ R.
Proof.
  trim.
  revert fg. induction l as [|sl l IH]; intros fg HR; cbn; [set_solver|].
  etrans; [apply IH; intros; eapply HR; eauto; by right|].
  assert (remotes_ready_ (run_slot sl s fg) ⊆ remotes_ready_ fg ∪ R) as H.
  { apply ready_run_slot. intros; eapply HR; eauto; by left. }
  set_solver.
Qed.

Lemma ready_event_loop_turn fg :
  remotes_ready_ (event_loop_turn fg) = remotes_ready_ fg.
Proof.
  unfold event_loop_turn. destruct (posted fg) as [|t rest]; [done|].
  destruct (task_functor t); cbn [run_functor].
  - assert (∀ l fg0, remotes_ready_
               (foldl (λ fg smeta, handle_indexed_meta smeta fg) fg0 l)
             = remotes_ready_ fg0) as H.
    { induction l as [|x l IH]; intros fg0; cbn; [done|].
      rewrite IH, handle_indexed_meta_eq. by destruct fg0. }
    rewrite H. by destruct fg.
  - by destruct fg.
Qed.

Lemma ready_inv_step ev fg :
  ready_inv fg →
  match ev with
  | signal_from (remote_obj r) handshakeSuccess => r ∈ remotes_ fg
  | _ => True
  end →
  ready_inv (step ev fg).
Proof.
  intros [Hw Hsub] Hev. split; [by apply wiring_step|].
  destruct ev as [remote|remote|snd_ s|]; cbn [step].
  - destruct ((attach remote fg).1) eqn:Hadm.
    + rewrite (attach_admitted _ _ Hadm). cbn. set_solver.
    + by rewrite attach_refused.
  - destruct (decide (remote ∈ remotes_ fg)) as [Hin|Hout].
    + rewrite detach_attached by done. cbn. set_solver.
    + by rewrite detach_not_attached.
  - destruct (frame_deliver snd_ s fg) as (_ & _ & -> & _).
    etrans; [apply (ready_foldl s _ fg (remotes_ fg))|set_solver].
    intros sl r Hin -> ->.
    apply (receivers_origin _ _ _ r) in Hin as ->; done.
  - rewrite ready_event_loop_turn.
    by destruct (frame_event_loop_turn fg) as (_ & _ & -> & _).
Qed.

Lemma ready_inv_run evs fg :
  ready_inv fg → handshakes_while_attached evs fg = true → ready_inv (run evs fg).
Proof.
  unfold run. revert fg. induction evs as [|ev evs IH]; intros fg Hinv Hev;
    cbn; [done|].
  cbn [handshakes_while_attached] in Hev.
  apply andb_true_iff in Hev as [Hnow Hlater].
  apply IH; [|done]. apply ready_inv_step; [done|].
  destruct ev as [| |snd_ s|]; try done.
  destruct snd_; try done. destruct s; try done.
  by apply bool_decide_eq_true in Hnow.
Qed.

(** C5, amended: [remotes_ready_ ⊆ remotes_] holds in every state reached
    from a new FolderGroup by attach calls, detach calls, signals and
    event-loop turns, provided each [handshakeSuccess] comes from a remote
    that is attached when it fires.  ([detach] leaves the remote's
    [handshakeSuccess] connection in place; a handshake of a detached remote
    would make it ready again.) *)
Theorem ready_subset_remotes (params : FolderParams) (ms : MetaStorage)
    (cs : ChunkStorage) (bc : BandwidthCounter) (evs : list Event) :
  handshakes_while_attached evs (FolderGroup_new params ms cs bc) = true →
  remotes_ready_ (run evs (FolderGroup_new params ms cs bc))
    ⊆ remotes_ (run evs (FolderGroup_new params ms cs bc)).
Proof.
  intros Hev. apply ready_inv_run; [|done].
  split; [apply wiring_new|]. rewrite FolderGroup_new_eq. cbn. set_solver.
Qed.

(** *** handle_indexed_meta and the startup replay *)

Lemma handle_indexed_meta_log smeta fg :
  handle_indexed_meta smeta fg
  = set_log (log fg ++ indexed_meta_calls fg smeta) fg.
Proof. apply handle_indexed_meta_eq. Qed.

Lemma deliver_metaAdded smeta fg :
  wiring fg →
  deliver meta_storage_obj (metaAdded smeta) fg = handle_indexed_meta smeta fg.
Proof.
  intros Hw. unfold deliver. by rewrite receivers_own.
Qed.

(** C7: [handle_indexed_meta(smeta)] asks ChunkStorage for the bitfield of
    [smeta]'s Meta, calls [Downloader::notifyLocalMeta(smeta, bitfield)] and
    then [MetaUploader::broadcast_meta(remotes(), revision, bitfield)], where
    [remotes()] lists each attached remote once; it changes nothing else.
    In every state reached from a new FolderGroup, an emission of
    [MetaStorage::metaAdded(smeta)] runs exactly [handle_indexed_meta(smeta)]. *)
Theorem handle_indexed_meta_spec (smeta : SignedMeta) :
  (∀ fg,
     let bitfield := make_bitfield (chunk_storage_ fg) (meta smeta) in
     handle_indexed_meta smeta fg
     = set_log
         (log fg ++
            [on_downloader (Downloader.notifyLocalMeta smeta bitfield);
             on_meta_uploader
               (MetaUploader.broadcast_meta (remotes fg)
                  (path_revision (meta smeta)) bitfield)]) fg
     ∧ NoDup (remotes fg)
     ∧ (∀ r, r ∈ remotes fg ↔ r ∈ remotes_ fg))
  ∧ (∀ params ms cs bc evs,
       let fg := run evs (FolderGroup_new params ms cs bc) in
       receivers meta_storage_obj (metaAdded smeta) fg
       = [slot_handle_indexed_meta]
       ∧ deliver meta_storage_obj (metaAdded smeta) fg
         = handle_indexed_meta smeta fg).
Proof.
  split.
  - intros fg. cbn zeta. split; [apply handle_indexed_meta_eq|].
    unfold remotes. split; [apply NoDup_elements|].
    intros r. apply elem_of_elements.
  - intros params ms cs bc evs. cbn zeta.
    assert (wiring (run evs (FolderGroup_new params ms cs bc))) as Hw.
    { apply run_invariant; [apply wiring_step|apply wiring_new]. }
    split; [by rewrite receivers_own|by apply deliver_metaAdded].
Qed.

Lemma go_through_index_log l fg :
  let fg' := foldl (λ fg smeta, handle_indexed_meta smeta fg) fg l in
  fg' = set_log (log fg ++ flat_map (indexed_meta_calls fg) l) fg.
Proof.
  cbn zeta. revert fg. induction l as [|smeta l IH]; intros fg; cbn [foldl flat_map].
  - destruct fg; cbn. by rewrite app_nil_r.
  - rewrite IH, handle_indexed_meta_log. destruct fg; cbn.
    by rewrite <- app_assoc.
Qed.

Lemma flat_map_indexed_meta_broadcasts fg l :
  length (filter (λ e, is_broadcast_meta e = true)
            (flat_map (indexed_meta_calls fg) l)) = length l.
Proof.
  induction l as [|smeta l IH]; [done|]. cbn [flat_map].
  rewrite filter_app, length_app, IH. done.
Qed.

(** C9: the constructor feeds nothing through [handle_indexed_meta] itself:
    its log holds no call on a transfer engine, and it leaves one posted
    task, [go_through_index].  When the event loop runs that task, every
    entry of [MetaStorage::getMeta()] goes through [handle_indexed_meta]
    once, in order: the log grows by one [notifyLocalMeta] and one
    [broadcast_meta] per entry, so there are as many broadcasts as entries,
    and the task is gone from the queue. *)
Theorem startup_replay (params : FolderParams) (ms : MetaStorage)
    (cs : ChunkStorage) (bc : BandwidthCounter) :
  let fg0 := FolderGroup_new params ms cs bc in
  posted fg0 = [{| task_context := this; task_functor := go_through_index |}]
  ∧ Forall (λ e, engine_call e = false) (log fg0)
  ∧ event_loop_turn fg0
    = foldl (λ fg smeta, handle_indexed_meta smeta fg) (set_posted [] fg0)
        (getMeta ms)
  ∧ effects_of event_loop_turn fg0
    = flat_map (indexed_meta_calls fg0) (getMeta ms)
  ∧ length (filter (λ e, is_broadcast_meta e = true)
              (effects_of event_loop_turn fg0))
    = length (getMeta ms)
  ∧ posted (event_loop_turn fg0) = [].
Proof.
  cbn zeta. rewrite FolderGroup_new_eq.
  set (fg0 := mkFolderGroup _ _ _ _ _ _ _ _ _ _ _ _).
  assert (event_loop_turn fg0
          = foldl (λ fg smeta, handle_indexed_meta smeta fg)
              (set_posted [] fg0) (getMeta ms)) as Hturn by done.
  assert (effects_of event_loop_turn fg0
          = flat_map (indexed_meta_calls fg0) (getMeta ms)) as Heff.
  { apply effects_of_app. rewrite Hturn, go_through_index_log. done. }
  split; [done|]. split; [by repeat constructor|]. split; [done|].
  split; [done|]. split.
  - rewrite Heff. apply flat_map_indexed_meta_broadcasts.
  - rewrite Hturn, go_through_index_log. done.
Qed.

(** *** handle_handshake *)

Lemma receivers_app_connections snd_ s fg cs :
  slot <$> filter (λ c, sender c = snd_ ∧ signal c = signal_name s)
             (connections fg ++ cs)
  = receivers snd_ s fg
    ++ (slot <$> filter (λ c, sender c = snd_ ∧ signal c = signal_name s) cs).
Proof. unfold receivers. by rewrite filter_app, fmap_app. Qed.

Lemma receivers_handle_handshake snd_ s origin fg :
  receivers snd_ s (handle_handshake origin fg)
  = receivers snd_ s fg
    ++ (slot <$> filter (λ c, sender c = snd_ ∧ signal c = signal_name s)
                   (handshake_connections origin)).
Proof.
  rewrite handle_handshake_eq. unfold receivers at 1. cbn [connections].
  apply receivers_app_connections.
Qed.

Lemma subscriptions_receivers remote s fg :
  subscriptions remote fg = [] → receivers (remote_obj remote) s fg = [].
Proof.
  trim.
  unfold subscriptions, receivers. intros Hs.
  induction (connections fg) as [|c l IH]; [done|].
  rewrite filter_cons in Hs. rewrite filter_cons.
  destruct (decide (sender c = remote_obj remote)) as [Heq|Hne].
  - discriminate.
  - rewrite decide_False by tauto. by apply IH.
Qed.

Lemma handshake_receivers origin n :
  slot <$> filter (λ c, sender c = remote_obj origin ∧ signal c = n)
             (handshake_connections origin)
  = handshake_slot origin n.
Proof.
  unfold handshake_connections.
  destruct n; cbn [handshake_slot];
    repeat first
      [ rewrite filter_cons_True by (split; reflexivity)
      | rewrite filter_cons_False by (intros [_ ?]; discriminate) ];
    rewrite filter_nil; reflexivity.
Qed.

Lemma handshake_receivers_other origin q n :
  q ≠ origin →
  filter (λ c, sender c = remote_obj q ∧ signal c = n)
    (handshake_connections origin) = [].
Proof.
  intros Hne. unfold handshake_connections.
  repeat (rewrite filter_cons_False by (intros [? _]; simplify_eq/=)).
  apply filter_nil.
Qed.

Lemma first_handshake_receivers origin s fg :
  first_handshake origin fg →
  signal_name s ≠ RemoteFolder_handshakeSuccess →
  receivers (remote_obj origin) s fg = [].
Proof.
  trim.
  unfold first_handshake, subscriptions, receivers. intros Hf Hs.
  induction (connections fg) as [|c l IH]; [done|].
  rewrite filter_cons in Hf. rewrite filter_cons.
  destruct (decide (sender c = remote_obj origin)) as [Heq|Hne].
  - apply Forall_cons in Hf as [Hc Hf].
    rewrite decide_False by (intros [_ ?]; congruence). by apply IH.
  - rewrite decide_False by tauto. by apply IH.
Qed.

Lemma log_effect e fg : log (effect e fg) = log fg ++ [e].
Proof. by destruct fg. Qed.

Lemma set_log_id fg : set_log (log fg ++ []) fg = fg.
Proof. destruct fg; cbn. by rewrite app_nil_r. Qed.

Lemma set_log_set_log es1 es2 fg :
  set_log (log (set_log (log fg ++ es1) fg) ++ es2) (set_log (log fg ++ es1) fg)
  = set_log (log fg ++ es1 ++ es2) fg.
Proof. destruct fg; cbn. by rewrite app_assoc. Qed.

(** What a slot does with a protocol message does not depend on the state
    it runs on: it makes its call, or none. *)
Lemma run_slot_message sl s :
  is_message s = true →
  ∃ es, ∀ fg, run_slot sl s fg = set_log (log fg ++ es) fg.
Proof.
  intros Hs. destruct s; try discriminate; destruct sl; cbn [run_slot];
    first [ by (exists []; intros fg; rewrite set_log_id)
          | by (eexists [_]; intros fg; reflexivity) ].
Qed.

Lemma foldl_message l s :
  is_message s = true →
  ∃ es, ∀ fg, foldl (λ fg sl, run_slot sl s fg) fg l
              = set_log (log fg ++ es) fg.
Proof.
  intros Hs. induction l as [|sl l (es' & IH)]; cbn [foldl].
  - exists []. intros fg. by rewrite set_log_id.
  - destruct (run_slot_message sl s Hs) as (es & Hsl).
    exists (es ++ es'). intros fg. by rewrite Hsl, IH, set_log_set_log.
Qed.

Lemma is_message_name s :
  is_message s = true → signal_name s ≠ RemoteFolder_handshakeSuccess.
Proof. by destruct s. Qed.

Lemma deliver_before_handshake origin s fg :
  first_handshake origin fg → is_message s = true →
  effects_of (deliver (remote_obj origin) s) fg = [].
Proof.
  intros Hf Hs. unfold effects_of, deliver.
  rewrite first_handshake_receivers by (done || by apply is_message_name).
  cbn [foldl]. apply drop_all.
Qed.

Lemma deliver_after_handshake origin s call fg :
  is_message s = true →
  (∀ fg0, foldl (λ fg sl, run_slot sl s fg) fg0
            (handshake_slot origin (signal_name s)) = effect call fg0) →
  effects_of (deliver (remote_obj origin) s) (handle_handshake origin fg)
  = effects_of (deliver (remote_obj origin) s) fg ++ [call].
Proof.
  intros Hs Hnew.
  destruct (foldl_message (receivers (remote_obj origin) s fg) s Hs)
    as (es & Hold).
  assert (effects_of (deliver (remote_obj origin) s) fg = es) as ->.
  { apply effects_of_app. unfold deliver. rewrite Hold. by destruct fg. }
  apply effects_of_app. unfold deliver.
  rewrite receivers_handle_handshake, handshake_receivers, foldl_app.
  rewrite Hold, Hnew, log_effect. set (fg' := handle_handshake origin fg).
  destruct fg'; cbn. by rewrite app_assoc.
Qed.

Ltac routed :=
  intros; apply deliver_after_handshake; [reflexivity|intros; reflexivity].

(** C8: [handle_handshake(origin)] inserts [origin] into [remotes_ready_],
    tells the Downloader to track it, and connects ten signals of [origin],
    and of no other remote, to lambdas.  From then on an emission of each of
    these signals by [origin] makes one call more than before: choke,
    unchoke, HaveChunk and BlockReply go to the Downloader, interested,
    not-interested and BlockRequest to the Uploader, HaveMeta and MetaReply
    to the MetaDownloader, MetaRequest to the MetaUploader; on a remote that
    had no handshake before, it made none before.
    [MetaUploader::handle_handshake(origin)] is not called inline: it is
    posted, and an event-loop turn with nothing else pending calls it. *)
Theorem handle_handshake_spec (origin : ptr) (fg : FolderGroup) :
  let fg' := handle_handshake origin fg in
  let before s := effects_of (deliver (remote_obj origin) s) fg in
  let calls s := effects_of (deliver (remote_obj origin) s) fg' in
  remotes_ready_ fg' = {[origin]} ∪ remotes_ready_ fg
  ∧ remotes_ fg' = remotes_ fg
  ∧ p2p_folders_digests_ fg' = p2p_folders_digests_ fg
  ∧ p2p_folders_endpoints_ fg' = p2p_folders_endpoints_ fg
  ∧ log fg' = log fg ++ [on_downloader (Downloader.trackRemote origin)]
  ∧ connections fg' = connections fg ++ handshake_connections origin
  ∧ Forall (λ c, sender c = remote_obj origin) (handshake_connections origin)
  ∧ (∀ q s, q ≠ origin →
            receivers (remote_obj q) s fg' = receivers (remote_obj q) s fg)
  ∧ posted fg'
    = posted fg ++
        [{| task_context := meta_uploader_obj;
            task_functor := meta_uploader_handshake origin |}]
  ∧ (posted fg = [] →
       effects_of event_loop_turn fg'
       = [on_meta_uploader (MetaUploader.handle_handshake origin)])
  ∧ (first_handshake origin fg → ∀ s, is_message s = true → before s = [])
  ∧ calls rcvdChoke
    = before rcvdChoke ++ [on_downloader (Downloader.handleChoke origin)]
  ∧ calls rcvdUnchoke
    = before rcvdUnchoke ++ [on_downloader (Downloader.handleUnchoke origin)]
  ∧ calls rcvdInterested
    = before rcvdInterested
      ++ [on_uploader (Uploader.handle_interested origin)]
  ∧ calls rcvdNotInterested
    = before rcvdNotInterested
      ++ [on_uploader (Uploader.handle_not_interested origin)]
  ∧ (∀ revision bitfield,
       calls (rcvdHaveMeta revision bitfield)
       = before (rcvdHaveMeta revision bitfield)
         ++ [on_meta_downloader
               (MetaDownloader.handle_have_meta origin revision bitfield)])
  ∧ (∀ ct_hash,
       calls (rcvdHaveChunk ct_hash)
       = before (rcvdHaveChunk ct_hash)
         ++ [on_downloader (Downloader.notifyRemoteChunk origin ct_hash)])
  ∧ (∀ path_revision,
       calls (rcvdMetaRequest path_revision)
       = before (rcvdMetaRequest path_revision)
         ++ [on_meta_uploader
               (MetaUploader.handle_meta_request origin path_revision)])
  ∧ (∀ smeta bitfield,
       calls (rcvdMetaReply smeta bitfield)
       = before (rcvdMetaReply smeta bitfield)
         ++ [on_meta_downloader
               (MetaDownloader.handle_meta_reply origin smeta bitfield)])
  ∧ (∀ ct_hash offset size,
       calls (rcvdBlockRequest ct_hash offset size)
       = before (rcvdBlockRequest ct_hash offset size)
         ++ [on_uploader
               (Uploader.handle_block_request origin ct_hash offset size)])
  ∧ (∀ ct_hash offset block,
       calls (rcvdBlockReply ct_hash offset block)
       = before (rcvdBlockReply ct_hash offset block)
         ++ [on_downloader (Downloader.putBlock ct_hash offset block origin)]).
Proof.
  cbn zeta.
  split; [by rewrite handle_handshake_eq|].
  split; [by rewrite handle_handshake_eq|].
  split; [by rewrite handle_handshake_eq|].
  split; [by rewrite handle_handshake_eq|].
  split; [by rewrite handle_handshake_eq|].
  split; [by rewrite handle_handshake_eq|].
  split; [by repeat constructor|].
  split.
  { intros q s Hne. rewrite receivers_handle_handshake.
    by rewrite handshake_receivers_other, app_nil_r. }
  split; [by rewrite handle_handshake_eq|].
  split.
  { intros Hp. apply effects_of_app. rewrite handle_handshake_eq.
    unfold event_loop_turn. cbn [posted]. rewrite Hp.
    cbn [app run_functor task_functor]. by rewrite log_effect. }
  split; [intros Hf s Hs; by apply deliver_before_handshake|].
  repeat split; routed.
Qed.

(** *** push_state *)

(** C10: each [push_state()] hands the state collector a ["peers"] array
    that holds the [collect_state()] blob of every element of [remotes_],
    one entry per element, and then a ["traffic_stats"] entry.
    [remotes_ready_] is not read: with any other ready set the two calls are
    the same. *)
Theorem push_state_spec (fg : FolderGroup) :
  let peers_array := map collect_state (elements (remotes_ fg)) in
  effects_of push_state fg
  = [on_state_collector
       (StateCollector.folder_state_set (folderid fg) "peers"
          (QJsonArray peers_array));
     on_state_collector
       (StateCollector.folder_state_set (folderid fg) "traffic_stats"
          (heartbeat_json (bandwidth_counter_ fg)).1)]
  ∧ length peers_array = size (remotes_ fg)
  ∧ NoDup (elements (remotes_ fg))
  ∧ (∀ r, r ∈ elements (remotes_ fg) ↔ r ∈ remotes_ fg)
  ∧ (∀ r, r ∈ remotes_ fg → collect_state r ∈ peers_array)
  ∧ (∀ ready, effects_of push_state (set_remotes_ready_ ready fg)
              = effects_of push_state fg).
Proof.
  cbn zeta.
  assert (∀ fg0,
    effects_of push_state fg0
    = [on_state_collector
         (StateCollector.folder_state_set (folderid fg0) "peers"
            (QJsonArray (map collect_state (elements (remotes_ fg0)))));
       on_state_collector
         (StateCollector.folder_state_set (folderid fg0) "traffic_stats"
            (heartbeat_json (bandwidth_counter_ fg0)).1)]) as Heff.
  { intros fg0. apply effects_of_app. by rewrite push_state_eq. }
  split; [apply Heff|].
  split; [by rewrite length_map|].
  split; [apply NoDup_elements|].
  split; [intros r; apply elem_of_elements|].
  split.
  - intros r Hr. apply list_elem_of_fmap. exists r. split; [done|].
    by apply elem_of_elements.
  - intros ready. rewrite !Heff. by destruct fg.
Qed.

(** *** The HaveChunk broadcast *)

Lemma have_chunk_sent_app l1 l2 :
  have_chunk_sent (l1 ++ l2) = have_chunk_sent l1 ++ have_chunk_sent l2.
Proof. apply flat_map_app. Qed.

Lemma quiet_refl fg : quiet fg fg.
Proof. exists []. by rewrite app_nil_r. Qed.

Lemma quiet_trans fg1 fg2 fg3 : quiet fg1 fg2 → quiet fg2 fg3 → quiet fg1 fg3.
Proof.
  intros (es & Hl & Hes) (es' & Hl' & Hes'). exists (es ++ es').
  rewrite Hl', Hl, app_assoc, have_chunk_sent_app, Hes, Hes'. done.
Qed.

Lemma quiet_sent_count p h fg fg' :
  quiet fg fg' → sent_count p h (log fg') = sent_count p h (log fg).
Proof.
  intros (es & -> & Hes). unfold sent_count.
  by rewrite have_chunk_sent_app, Hes, app_nil_r.
Qed.

Lemma quiet_handle_indexed_meta smeta fg : quiet fg (handle_indexed_meta smeta fg).
Proof. rewrite handle_indexed_meta_eq. destruct fg. by eexists. Qed.

Lemma quiet_run_slot sl s fg :
  sl ≠ slot_chunkAdded → quiet fg (run_slot sl s fg).
Proof.
  intros Hsl.
  destruct sl, s; try done; cbn [run_slot];
    first [ apply quiet_refl
          | apply quiet_handle_indexed_meta
          | rewrite handle_handshake_eq; by eexists
          | rewrite push_state_eq; by eexists
          | destruct fg; by eexists ].
Qed.

Lemma quiet_foldl {A} (f : FolderGroup → A → FolderGroup) (l : list A) fg :
  (∀ fg x, x ∈ l → quiet fg (f fg x)) → quiet fg (foldl f fg l).
Proof.
  revert fg. induction l as [|x l IH]; intros fg Hf; cbn.
  - apply quiet_refl.
  - eapply quiet_trans; [apply Hf; by left|].
    apply IH. intros. apply Hf. by right.
Qed.

Lemma receivers_chunkAdded snd_ s fg :
  wiring fg → slot_chunkAdded ∈ receivers snd_ s fg →
  snd_ = chunk_storage_obj ∧ signal_name s = ChunkStorage_chunkAdded.
Proof.
  intros (peers & Hp & Hpeers) Hin. unfold receivers in Hin.
  apply list_elem_of_fmap in Hin as (c & Hsl & Hc).
  apply list_elem_of_filter in Hc as [[<- <-] Hc].
  rewrite Hp in Hc. apply elem_of_app in Hc as [Hc|Hc].
  - unfold own_connections in Hc. set_unfold in Hc.
    destruct Hc as [->| [->| [->| [->|[]]]]]; done.
  - rewrite Forall_forall in Hpeers. destruct (Hpeers c Hc) as (r & _ & Ho).
    rewrite <- Hsl in Ho. discriminate.
Qed.

Lemma deliver_chunkAdded ct_hash fg :
  wiring fg →
  log (deliver chunk_storage_obj (chunkAdded ct_hash) fg)
  = log fg ++
      [on_downloader (Downloader.notifyLocalChunk ct_hash);
       on_uploader (Uploader.broadcast_chunk (remotes fg) ct_hash)].
Proof.
  intros Hw. unfold deliver.
  assert (receivers chunk_storage_obj (chunkAdded ct_hash) fg
          = [slot_chunkAdded]) as ->.
  { rewrite receivers_own by done. reflexivity. }
  cbn [foldl run_slot]. destruct fg. run_actions. by rewrite <- app_assoc.
Qed.

Lemma count_in_broadcast (p : ptr) (h h' : blob) (l : list ptr) :
  NoDup l →
  length (filter (λ m, m = (p, h)) ((λ q, (q, h')) <$> l)) ≤ 1.
Proof.
  induction 1 as [|q l Hq Hl IH]; cbn [fmap list_fmap]; [cbn; lia|].
  rewrite filter_cons. destruct (decide ((q, h') = (p, h))) as [[= -> ->]|Hne];
    [|done].
  replace (filter _ _) with (@nil (ptr * blob)); [cbn; lia|].
  symmetry. clear IH Hl. induction l as [|r l IH]; [done|]. cbn [fmap list_fmap].
  rewrite filter_cons_False.
  - apply IH. intros Hin. apply Hq. by right.
  - intros [= ->]. apply Hq. by left.
Qed.

Lemma sent_count_step p h ev fg :
  wiring fg →
  sent_count p h (log (step ev fg))
  ≤ sent_count p h (log fg) + (if is_chunkAdded h ev then 1 else 0).
Proof.
  intros Hw.
  assert (∀ fg', quiet fg fg' →
            sent_count p h (log fg')
            ≤ sent_count p h (log fg) + (if is_chunkAdded h ev then 1 else 0))
    as Hquiet.
  { intros fg' Hq. rewrite (quiet_sent_count _ _ _ _ Hq). lia. }
  destruct ev as [remote|remote|snd_ s|]; cbn [step].
  - apply Hquiet. destruct ((attach remote fg).1) eqn:Hadm.
    + rewrite (attach_admitted _ _ Hadm). by eexists.
    + rewrite attach_refused by done. apply quiet_refl.
  - apply Hquiet. destruct (decide (remote ∈ remotes_ fg)) as [Hin|Hout].
    + rewrite detach_attached by done. by eexists.
    + rewrite detach_not_attached by done. apply quiet_refl.
  - destruct (decide (slot_chunkAdded ∈ receivers snd_ s fg)) as [Hin|Hout].
    + apply receivers_chunkAdded in Hin as [-> Hs]; [|done].
      destruct s; try discriminate. rewrite deliver_chunkAdded by done.
      unfold sent_count. rewrite have_chunk_sent_app, filter_app, length_app.
      cbn [have_chunk_sent flat_map have_chunk_of broadcast_chunk_sends app].
      rewrite app_nil_r. cbn [is_chunkAdded].
      case_bool_decide as Hh.
      * pose proof (count_in_broadcast p h ct_hash (remotes fg)
                      (NoDup_elements _)). lia.
      * replace (filter _ (_ <$> remotes fg)) with (@nil (ptr * blob));
          [cbn; lia|].
        symmetry. induction (remotes fg) as [|q l IH]; [done|].
        cbn [fmap list_fmap]. rewrite filter_cons_False; [done|].
        intros [= _ ?]. by apply Hh.
    + apply Hquiet. unfold deliver. apply quiet_foldl.
      intros fg0 sl Hsl. apply quiet_run_slot. by intros ->.
  - apply Hquiet. unfold event_loop_turn.
    destruct (posted fg) as [|t rest]; [apply quiet_refl|].
    eapply quiet_trans with (fg2 := set_posted rest fg).
    + destruct fg. exists []. cbn. by rewrite app_nil_r.
    + destruct (task_functor t); cbn [run_functor].
      * apply quiet_foldl. intros. apply quiet_handle_indexed_meta.
      * destruct fg. by eexists.
Qed.

Lemma sent_count_run p h evs fg :
  wiring fg →
  sent_count p h (log (run evs fg))
  ≤ sent_count p h (log fg) + chunkAdded_count h evs.
Proof.
  unfold run, chunkAdded_count. revert fg.
  induction evs as [|ev evs IH]; intros fg Hw; cbn [foldl]; [cbn; lia|].
  etrans; [apply IH, wiring_step, Hw|].
  pose proof (sent_count_step p h ev fg Hw) as Hstep.
  destruct (is_chunkAdded h ev) eqn:E.
  - rewrite filter_cons_True by done. cbn [length]. lia.
  - rewrite filter_cons_False by (rewrite E; done). lia.
Qed.

(** C6, amended: in every state reached from a new FolderGroup, an emission
    of [ChunkStorage::chunkAdded(ct_hash)] makes the coordinator call
    [Downloader::notifyLocalChunk(ct_hash)] and then
    [Uploader::broadcast_chunk(remotes(), ct_hash)]: [HaveChunk(ct_hash)] is
    addressed to every attached remote, handshaken or not, once each, and to
    no one else.  Over a run in which ChunkStorage emits
    [chunkAdded(ct_hash)] at most once, no remote is sent
    [HaveChunk(ct_hash)] more than once. *)
Theorem have_chunk_broadcast (params : FolderParams) (ms : MetaStorage)
    (cs : ChunkStorage) (bc : BandwidthCounter) (evs : list Event)
    (ct_hash : blob) :
  let fg := run evs (FolderGroup_new params ms cs bc) in
  let calls := effects_of (deliver chunk_storage_obj (chunkAdded ct_hash)) fg in
  calls = [on_downloader (Downloader.notifyLocalChunk ct_hash);
           on_uploader (Uploader.broadcast_chunk (remotes fg) ct_hash)]
  ∧ (∀ p h, (p, h) ∈ have_chunk_sent calls ↔ p ∈ remotes_ fg ∧ h = ct_hash)
  ∧ NoDup (have_chunk_sent calls)
  ∧ (chunkAdded_count ct_hash evs ≤ 1 →
     ∀ p, sent_count p ct_hash (log fg) ≤ 1).
Proof.
  cbn zeta. set (fg0 := FolderGroup_new params ms cs bc).
  assert (wiring fg0) as Hw0 by apply wiring_new.
  assert (wiring (run evs fg0)) as Hw.
  { apply run_invariant; [apply wiring_step|done]. }
  set (fg := run evs fg0) in *.
  assert (effects_of (deliver chunk_storage_obj (chunkAdded ct_hash)) fg
          = [on_downloader (Downloader.notifyLocalChunk ct_hash);
             on_uploader (Uploader.broadcast_chunk (remotes fg) ct_hash)])
    as Hcalls.
  { apply effects_of_app. by apply deliver_chunkAdded. }
  rewrite Hcalls.
  cbn [have_chunk_sent flat_map have_chunk_of broadcast_chunk_sends app].
  rewrite app_nil_r.
  split; [done|]. split; [|split].
  - assert (∀ q, q ∈ elements (remotes_ fg) ↔ q ∈ remotes_ fg) as Hel
      by (intros; apply elem_of_elements).
    intros p h. rewrite list_elem_of_fmap. unfold remotes. split.
    + intros (q & [= -> ->] & Hq). by apply Hel in Hq.
    + intros [Hp ->]. exists p. split; [done|]. by apply Hel.
  - apply NoDup_fmap_2; [by intros q1 q2 [= ->]|].
    unfold remotes. apply NoDup_elements.
  - intros Hcount p.
    pose proof (sent_count_run p ct_hash evs fg0 Hw0) as Hrun.
    assert (sent_count p ct_hash (log fg0) = 0) as Hnew.
    { unfold fg0. by rewrite FolderGroup_new_eq. }
    fold fg in Hrun. lia.
Qed.

(** *** Further properties of the registry and the wiring *)

(** X1: a remote whose digest is already registered, or whose endpoint is,
    is refused by [attach] whatever its handle, and nothing changes: a second
    session of an attached peer over another address is rejected, and so is
    a second session from an attached address. *)
Theorem attach_duplicate_rejected (remote : ptr) (fg : FolderGroup) :
  digest remote ∈ p2p_folders_digests_ fg
  ∨ endpoint remote ∈ p2p_folders_endpoints_ fg →
  attach remote fg = (false, fg).
Proof.
  trim.
  intros Hdup. unfold attach.
  destruct Hdup as [Hd|He].
  - rewrite (bool_decide_eq_true_2 _ Hd). by rewrite orb_true_r.
  - rewrite (bool_decide_eq_true_2 _ He). by rewrite orb_true_r.
Qed.

(** X2: in every state reached from a new FolderGroup, a timeout of the
    state pusher runs [push_state()] once and nothing else. *)
Theorem state_tick (params : FolderParams) (ms : MetaStorage)
    (cs : ChunkStorage) (bc : BandwidthCounter) (evs : list Event) :
  let fg := run evs (FolderGroup_new params ms cs bc) in
  receivers state_pusher_obj timeout fg = [slot_push_state]
  ∧ deliver state_pusher_obj timeout fg = push_state fg.
Proof.
  cbn zeta.
  assert (wiring (run evs (FolderGroup_new params ms cs bc))) as Hw.
  { apply run_invariant; [apply wiring_step|apply wiring_new]. }
  assert (receivers state_pusher_obj timeout
            (run evs (FolderGroup_new params ms cs bc)) = [slot_push_state])
    as Hr by (by rewrite receivers_own).
  split; [done|]. unfold deliver. by rewrite Hr.
Qed.

Lemma receivers_snoc_handshake remote fg c :
  subscriptions remote fg = [] →
  connections c = connections fg ++
    [{| sender := remote_obj remote; signal := RemoteFolder_handshakeSuccess;
        context := this; slot := slot_handshakeSuccess remote |};
     {| sender := remote_obj remote; signal := RemoteFolder_handshakeSuccess;
        context := this; slot := slot_handshakeSuccess remote |}] →
  receivers (remote_obj remote) handshakeSuccess c
  = [slot_handshakeSuccess remote; slot_handshakeSuccess remote].
Proof.
  trim.
  intros Hs Hc. unfold receivers. rewrite Hc, filter_app, fmap_app.
  fold (receivers (remote_obj remote) handshakeSuccess fg).
  rewrite (subscriptions_receivers _ _ _ Hs).
  by rewrite !filter_cons_True by done.
Qed.

(** X3: [attach(p)], [detach(p)], [attach(p)] admits [p] twice and leaves two
    connections from [p]'s [handshakeSuccess] to [handle_handshake(p)]: the
    one made by the first [attach] is still there.  On a remote with no
    earlier subscription, one handshake then makes the Downloader track [p]
    twice. *)
Theorem reattach_doubles_handshake (remote : ptr) (fg : FolderGroup) :
  (attach remote fg).1 = true →
  let fg1 := detach remote (attach remote fg).2 in
  (attach remote fg1).1 = true
  ∧ connections (attach remote fg1).2
    = connections fg ++
        [{| sender := remote_obj remote;
            signal := RemoteFolder_handshakeSuccess;
            context := this; slot := slot_handshakeSuccess remote |};
         {| sender := remote_obj remote;
            signal := RemoteFolder_handshakeSuccess;
            context := this; slot := slot_handshakeSuccess remote |}]
  ∧ (subscriptions remote fg = [] →
       effects_of (deliver (remote_obj remote) handshakeSuccess)
         (attach remote fg1).2
       = [on_downloader (Downloader.trackRemote remote);
          on_downloader (Downloader.trackRemote remote)]).
Proof.
  intros Hadm. cbn zeta.
  set (fg1 := detach remote (attach remote fg).2).
  assert (remote ∈ remotes_ (attach remote fg).2) as Hin.
  { rewrite (attach_admitted _ _ Hadm). cbn. set_solver. }
  assert ((attach remote fg1).1 = true) as Hadm1.
  { apply attach_admits_iff. unfold fg1.
    rewrite (detach_attached _ _ Hin). cbn. set_solver. }
  assert (connections (attach remote fg1).2
          = connections fg ++
              [{| sender := remote_obj remote;
                  signal := RemoteFolder_handshakeSuccess;
                  context := this; slot := slot_handshakeSuccess remote |};
               {| sender := remote_obj remote;
                  signal := RemoteFolder_handshakeSuccess;
                  context := this; slot := slot_handshakeSuccess remote |}])
    as Hconn.
  { rewrite (attach_admitted _ _ Hadm1). cbn [connections]. unfold fg1.
    rewrite detach_connections, (attach_admitted _ _ Hadm). cbn [connections].
    by rewrite <- app_assoc. }
  split; [done|]. split; [done|].
  intros Hs. apply effects_of_app. unfold deliver.
  rewrite (receivers_snoc_handshake _ _ _ Hs Hconn).
  cbn [foldl run_slot]. rewrite !handle_handshake_eq. cbn [log].
  by rewrite <- app_assoc.
Qed.


(** *** A run as a sequence of atomic transitions *)

Lemma plain_step_effect e fg : plain e = true → plain_step fg (effect e fg).
Proof.
  trim.
  intros He. destruct fg. repeat split; try done.
  exists [e]. split; [done|]. by constructor.
Qed.

Lemma plain_step_handle_indexed_meta smeta fg :
  plain_step fg (handle_indexed_meta smeta fg).
Proof.
  trim.
  rewrite handle_indexed_meta_eq. destruct fg. repeat split; try done.
  eexists. split; [done|]. by repeat constructor.
Qed.

Lemma plain_step_refl fg : plain_step fg fg.
Proof.
  trim.
  repeat split; try done. exists []. split; [by rewrite app_nil_r|constructor].
Qed.

Lemma plain_step_trans fg1 fg2 fg3 :
  plain_step fg1 fg2 → plain_step fg2 fg3 → plain_step fg1 fg3.
Proof.
  trim.
  intros (H1 & H2 & H3 & H4 & H5 & H6 & H7 & H8 & H9 & H10 & es & Hl & Hes)
         (G1 & G2 & G3 & G4 & G5 & G6 & G7 & G8 & G9 & G10 & es' & Hl' & Hes').
  repeat split; try congruence.
  exists (es ++ es'). split; [by rewrite Hl', Hl, app_assoc|by apply Forall_app].
Qed.

Lemma run_slot_micro sl s fg : rtc (micro false) fg (run_slot sl s fg).
Proof.
  destruct sl, s; cbn [run_slot];
    first [ apply rtc_refl
          | apply rtc_once, micro_push_state
          | apply rtc_once, micro_handle_handshake
          | apply rtc_once, micro_plain, plain_step_handle_indexed_meta
          | by apply rtc_once, micro_plain, plain_step_effect
          | idtac ].
  all: apply rtc_once, micro_plain; destruct fg; repeat split; try done.
  all: eexists; split; [run_actions; rewrite <- ?app_assoc; reflexivity|].
  all: by repeat constructor.
Qed.

Lemma deliver_micro snd_ s fg : rtc (micro false) fg (deliver snd_ s fg).
Proof.
  unfold deliver. generalize (receivers snd_ s fg). intros l. revert fg.
  induction l as [|sl l IH]; intros fg; cbn [foldl]; [apply rtc_refl|].
  etrans; [apply run_slot_micro|apply IH].
Qed.

Lemma step_micro ev fg :
  is_loop_turn ev = false → rtc (micro false) fg (step ev fg).
Proof.
  destruct ev as [remote|remote|snd_ s|]; cbn [step]; intros Hev; try done.
  - destruct ((attach remote fg).1) eqn:Hadm.
    + by apply rtc_once, micro_attach.
    + rewrite attach_refused by done. apply rtc_refl.
  - destruct (decide (remote ∈ remotes_ fg)) as [Hin|Hout].
    + by apply rtc_once, micro_detach.
    + rewrite detach_not_attached by done. apply rtc_refl.
  - apply deliver_micro.
Qed.

Lemma event_loop_turn_micro fg :
  (posted fg = [] ∧ event_loop_turn fg = fg) ∨ micro true fg (event_loop_turn fg).
Proof.
  destruct (posted fg) as [|t rest] eqn:Hp.
  - left. split; [done|]. unfold event_loop_turn. by rewrite Hp.
  - right. destruct (task_functor t) eqn:Ht.
    + by eapply micro_go_through_index.
    + by eapply micro_meta_uploader_handshake.
Qed.

(** An invariant of the atomic transitions is an invariant of every run. *)
Lemma run_micro_invariant (Inv : FolderGroup → Prop) evs fg :
  (∀ k fg fg', micro k fg fg' → Inv fg → Inv fg') → Inv fg → Inv (run evs fg).
Proof.
  intros Hmicro. apply run_invariant. clear fg. intros ev fg Hfg.
  destruct (is_loop_turn ev) eqn:Hev.
  - destruct ev; try done. cbn [step].
    destruct (event_loop_turn_micro fg) as [[_ ->]|Hm]; [done|].
    by eapply Hmicro.
  - pose proof (step_micro ev fg Hev) as Hrtc.
    induction Hrtc as [|fg1 fg2 fg3 Hm _ IH]; [done|].
    apply IH. by eapply Hmicro.
Qed.

(** What the two posted functors compute. *)
Lemma event_loop_turn_go_through_index t rest fg :
  posted fg = t :: rest → task_functor t = go_through_index →
  event_loop_turn fg =
    mkFolderGroup (params_ fg) (meta_storage_ fg) (chunk_storage_ fg)
      (bandwidth_counter_ fg) (state_pusher_ fg)
      (remotes_ fg) (remotes_ready_ fg)
      (p2p_folders_endpoints_ fg) (p2p_folders_digests_ fg)
      (connections fg) rest
      (log fg ++ flat_map (indexed_meta_calls fg) (getMeta (meta_storage_ fg))).
Proof.
  intros Hp Ht. unfold event_loop_turn. rewrite Hp, Ht. cbn [run_functor].
  rewrite go_through_index_log. by destruct fg.
Qed.

Lemma event_loop_turn_meta_uploader_handshake t rest origin fg :
  posted fg = t :: rest → task_functor t = meta_uploader_handshake origin →
  event_loop_turn fg =
    mkFolderGroup (params_ fg) (meta_storage_ fg) (chunk_storage_ fg)
      (bandwidth_counter_ fg) (state_pusher_ fg)
      (remotes_ fg) (remotes_ready_ fg)
      (p2p_folders_endpoints_ fg) (p2p_folders_digests_ fg)
      (connections fg) rest
      (log fg ++ [on_meta_uploader (MetaUploader.handle_handshake origin)]).
Proof.
  trim.
  intros Hp Ht. unfold event_loop_turn. rewrite Hp, Ht. cbn [run_functor].
  by destruct fg.
Qed.

Lemma indexed_meta_calls_plain fg l :
  Forall (λ e, plain e = true) (flat_map (indexed_meta_calls fg) l).
Proof.
  induction l as [|smeta l IH]; cbn [flat_map]; [constructor|].
  apply Forall_app. split; [by repeat constructor|done].
Qed.

Ltac micro_cases Hm :=
  destruct Hm as
    [ fg fg' (Hparams & Hms & Hbc & Hsp & Hrem & Hready & Hend & Hdig & Hconn
              & Hposted & es & Hlog & Hes)
    | fg | origin fg | remote fg Hadm | remote fg Hin
    | t rest fg Hp Ht | t rest origin fg Hp Ht ];
  [ idtac
  | rewrite push_state_eq
  | rewrite handle_handshake_eq
  | rewrite (attach_admitted _ _ Hadm)
  | rewrite (detach_attached _ _ Hin)
  | rewrite (event_loop_turn_go_through_index _ _ _ Hp Ht)
  | rewrite (event_loop_turn_meta_uploader_handshake _ _ _ _ Hp Ht) ].

(** *** The ready set and the Downloader *)

Lemma tracked_app p l es :
  tracked p (l ++ es) = foldl (tracking p) (tracked p l) es.
Proof. trim. apply foldl_app. Qed.

Lemma tracking_plain p b es :
  Forall (λ e, plain e = true) es → foldl (tracking p) b es = b.
Proof.
  trim.
  induction 1 as [|e es He _ IH]; cbn [foldl]; [done|].
  rewrite <- IH at 2. f_equal. by destruct e as [| | |[]| | | | | |].
Qed.

Lemma ready_tracked_micro k fg fg' :
  micro k fg fg' →
  (∀ p, p ∈ remotes_ready_ fg ↔ tracked p (log fg) = true) →
  (∀ p, p ∈ remotes_ready_ fg' ↔ tracked p (log fg') = true).
Proof.
  intros Hm Hinv p. specialize (Hinv p). micro_cases Hm.
  - by rewrite Hready, Hlog, tracked_app, tracking_plain.
  - cbn [remotes_ready_ log]. by rewrite tracked_app.
  - cbn [remotes_ready_ log]. rewrite tracked_app. cbn [foldl tracking].
    case_bool_decide; set_solver.
  - cbn [remotes_ready_ log]. by rewrite tracked_app.
  - cbn [remotes_ready_ log]. rewrite tracked_app. cbn [foldl tracking].
    case_bool_decide; set_solver.
  - cbn [remotes_ready_ log].
    by rewrite tracked_app, tracking_plain by apply indexed_meta_calls_plain.
  - cbn [remotes_ready_ log]. by rewrite tracked_app.
Qed.

(** X5: in every state reached from a new FolderGroup, whatever the order of
    calls and signals, a remote is in [remotes_ready_] exactly when the
    latest of [trackRemote] and [untrackRemote] the Downloader was given
    about it is [trackRemote]: the ready set and the set of remotes the
    Downloader has been told to track never disagree. *)
Theorem ready_iff_tracked (params : FolderParams) (ms : MetaStorage)
    (cs : ChunkStorage) (bc : BandwidthCounter) (evs : list Event) (p : ptr) :
  p ∈ remotes_ready_ (run evs (FolderGroup_new params ms cs bc))
  ↔ tracked p (log (run evs (FolderGroup_new params ms cs bc))) = true.
Proof.
  revert p. apply run_micro_invariant; [apply ready_tracked_micro|].
  intros p. rewrite FolderGroup_new_eq. cbn. set_solver.
Qed.

(** *** The attached set and the signals of the coordinator *)

Lemma announced_app p l es :
  announced p (l ++ es) = foldl (announcing p) (announced p l) es.
Proof. trim. apply foldl_app. Qed.

Lemma announcing_plain p b es :
  Forall (λ e, plain e = true) es → foldl (announcing p) b es = b.
Proof.
  trim.
  induction 1 as [|e es He _ IH]; cbn [foldl]; [done|].
  rewrite <- IH at 2. f_equal. by destruct e.
Qed.

Lemma attached_announced_micro k fg fg' :
  micro k fg fg' →
  (∀ p, p ∈ remotes_ fg ↔ announced p (log fg) = true) →
  (∀ p, p ∈ remotes_ fg' ↔ announced p (log fg') = true).
Proof.
  intros Hm Hinv p. specialize (Hinv p). micro_cases Hm.
  - by rewrite Hrem, Hlog, announced_app, announcing_plain.
  - cbn [remotes_ log]. by rewrite announced_app.
  - cbn [remotes_ log]. by rewrite announced_app.
  - cbn [remotes_ log]. rewrite announced_app. cbn [foldl announcing].
    case_bool_decide; set_solver.
  - cbn [remotes_ log]. rewrite announced_app. cbn [foldl announcing].
    case_bool_decide; set_solver.
  - cbn [remotes_ log].
    by rewrite announced_app, announcing_plain by apply indexed_meta_calls_plain.
  - cbn [remotes_ log]. by rewrite announced_app.
Qed.

(** X6: in every state reached from a new FolderGroup, a remote is in
    [remotes_] exactly when the latest of [attached] and [detached] emitted
    about it is [attached]: a listener of the two signals always knows the
    attached set.  (A refused [attach] and a [detach] of a remote that is
    not attached emit nothing.) *)
Theorem attached_iff_announced (params : FolderParams) (ms : MetaStorage)
    (cs : ChunkStorage) (bc : BandwidthCounter) (evs : list Event) (p : ptr) :
  p ∈ remotes_ (run evs (FolderGroup_new params ms cs bc))
  ↔ announced p (log (run evs (FolderGroup_new params ms cs bc))) = true.
Proof.
  revert p. apply run_micro_invariant; [apply attached_announced_micro|].
  intros p. rewrite FolderGroup_new_eq. cbn. set_solver.
Qed.

(** *** Handshakes and the deferred advertisement *)

Lemma count_if_app {A} (f : A → bool) l1 l2 :
  count_if f (l1 ++ l2) = count_if f l1 + count_if f l2.
Proof. trim. unfold count_if. by rewrite filter_app, length_app. Qed.

Lemma count_if_cons {A} (f : A → bool) x l :
  count_if f (x :: l) = (if f x then 1 else 0) + count_if f l.
Proof.
  trim. unfold count_if. rewrite filter_cons.
  destruct (f x); [by rewrite decide_True|by rewrite decide_False].
Qed.

Lemma count_if_none {A} (f : A → bool) l :
  Forall (λ x, f x = false) l → count_if f l = 0.
Proof.
  trim. induction 1 as [|x l Hx _ IH]; [done|].
  by rewrite count_if_cons, Hx, IH.
Qed.

Lemma plain_not_trackRemote p es :
  Forall (λ e, plain e = true) es → count_if (is_trackRemote p) es = 0.
Proof.
  trim. intros Hes. apply count_if_none.
  eapply Forall_impl; [exact Hes|]. by intros [| | |[]| | | | | |].
Qed.

Lemma plain_not_meta_handshake p es :
  Forall (λ e, plain e = true) es → count_if (is_meta_handshake p) es = 0.
Proof.
  trim. intros Hes. apply count_if_none.
  eapply Forall_impl; [exact Hes|]. by intros [| | | | |[]| | | |].
Qed.

Lemma advertised_micro k fg fg' p :
  micro k fg fg' →
  count_if (is_trackRemote p) (log fg)
  = count_if (is_meta_handshake p) (log fg)
    + count_if (is_pending_handshake p) (posted fg) →
  count_if (is_trackRemote p) (log fg')
  = count_if (is_meta_handshake p) (log fg')
    + count_if (is_pending_handshake p) (posted fg').
Proof.
  intros Hm Hinv. micro_cases Hm.
  - rewrite Hposted, Hlog, !count_if_app.
    rewrite (plain_not_trackRemote p es), (plain_not_meta_handshake p es)
      by done. lia.
  - cbn [log posted]. rewrite !count_if_app. cbn. lia.
  - cbn [log posted]. rewrite !count_if_app, !count_if_cons.
    unfold is_pending_handshake in *. cbn.
    destruct (bool_decide (origin = p)); lia.
  - cbn [log posted]. rewrite !count_if_app. cbn. lia.
  - cbn [log posted]. rewrite !count_if_app. cbn. lia.
  - cbn [log posted]. rewrite Hp, count_if_cons in Hinv.
    unfold is_pending_handshake in Hinv at 1. rewrite Ht in Hinv.
    rewrite !count_if_app.
    rewrite (plain_not_trackRemote p (flat_map _ _)),
      (plain_not_meta_handshake p (flat_map _ _))
      by apply indexed_meta_calls_plain. lia.
  - cbn [log posted]. rewrite Hp, count_if_cons in Hinv.
    unfold is_pending_handshake in Hinv at 1. rewrite Ht in Hinv.
    rewrite !count_if_app, !count_if_cons. cbn.
    destruct (bool_decide (origin = p)); lia.
Qed.

(** X7: in every state reached from a new FolderGroup and for every remote,
    the number of [Downloader::trackRemote] calls made for it (one per
    handshake handled) is the number of [MetaUploader::handle_handshake]
    calls made for it plus the number of such calls still posted: every
    handshake gets its advertisement exactly once, none is lost and none is
    made twice; with an empty queue the two counts agree. *)
Theorem handshake_advertised_once (params : FolderParams) (ms : MetaStorage)
    (cs : ChunkStorage) (bc : BandwidthCounter) (evs : list Event) (p : ptr) :
  let fg := run evs (FolderGroup_new params ms cs bc) in
  count_if (is_trackRemote p) (log fg)
  = count_if (is_meta_handshake p) (log fg)
    + count_if (is_pending_handshake p) (posted fg)
  ∧ (posted fg = [] →
     count_if (is_trackRemote p) (log fg)
     = count_if (is_meta_handshake p) (log fg)).
Proof.
  cbn zeta.
  assert (count_if (is_trackRemote p)
            (log (run evs (FolderGroup_new params ms cs bc)))
          = count_if (is_meta_handshake p)
              (log (run evs (FolderGroup_new params ms cs bc)))
            + count_if (is_pending_handshake p)
                (posted (run evs (FolderGroup_new params ms cs bc)))) as Heq.
  { apply (run_micro_invariant
             (λ fg, count_if (is_trackRemote p) (log fg)
                    = count_if (is_meta_handshake p) (log fg)
                      + count_if (is_pending_handshake p) (posted fg))).
    - intros k fg fg' Hm. by apply (advertised_micro k).
    - by rewrite FolderGroup_new_eq. }
  split; [done|]. intros Hp. rewrite Heq, Hp. cbn. lia.
Qed.

(** *** The event loop *)

Lemma posted_event_loop_turn fg :
  posted (event_loop_turn fg) = tail (posted fg).
Proof.
  destruct (posted fg) as [|t rest] eqn:Hp.
  - unfold event_loop_turn. by rewrite Hp.
  - destruct (task_functor t) eqn:Ht.
    + by rewrite (event_loop_turn_go_through_index _ _ _ Hp Ht).
    + by rewrite (event_loop_turn_meta_uploader_handshake _ _ _ _ Hp Ht).
Qed.

Lemma event_loop_turn_registry fg :
  remotes_ (event_loop_turn fg) = remotes_ fg
  ∧ remotes_ready_ (event_loop_turn fg) = remotes_ready_ fg
  ∧ p2p_folders_digests_ (event_loop_turn fg) = p2p_folders_digests_ fg
  ∧ p2p_folders_endpoints_ (event_loop_turn fg) = p2p_folders_endpoints_ fg
  ∧ connections (event_loop_turn fg) = connections fg.
Proof.
  destruct (posted fg) as [|t rest] eqn:Hp.
  - unfold event_loop_turn. by rewrite Hp.
  - destruct (task_functor t) eqn:Ht.
    + by rewrite (event_loop_turn_go_through_index _ _ _ Hp Ht).
    + by rewrite (event_loop_turn_meta_uploader_handshake _ _ _ _ Hp Ht).
Qed.

(** X8: the event loop serves the posted functors first come, first served,
    and no functor of FolderGroup.cpp posts another one: after [n] turns the
    queue is the old one without its first [n] tasks, so as many turns as
    there are tasks empty it.  The turns leave the registry, the ready set
    and the connection table as they were. *)
Theorem event_loop_drains (n : nat) (fg : FolderGroup) :
  let fg' := run (replicate n loop_turn) fg in
  posted fg' = drop n (posted fg)
  ∧ (length (posted fg) ≤ n → posted fg' = [])
  ∧ remotes_ fg' = remotes_ fg
  ∧ remotes_ready_ fg' = remotes_ready_ fg
  ∧ p2p_folders_digests_ fg' = p2p_folders_digests_ fg
  ∧ p2p_folders_endpoints_ fg' = p2p_folders_endpoints_ fg
  ∧ connections fg' = connections fg.
Proof.
  cbn zeta.
  assert (posted (run (replicate n loop_turn) fg) = drop n (posted fg)
          ∧ remotes_ (run (replicate n loop_turn) fg) = remotes_ fg
          ∧ remotes_ready_ (run (replicate n loop_turn) fg) = remotes_ready_ fg
          ∧ p2p_folders_digests_ (run (replicate n loop_turn) fg)
            = p2p_folders_digests_ fg
          ∧ p2p_folders_endpoints_ (run (replicate n loop_turn) fg)
            = p2p_folders_endpoints_ fg
          ∧ connections (run (replicate n loop_turn) fg) = connections fg)
    as (Hp & Hrest).
  { unfold run. revert fg. induction n as [|n IH]; intros fg.
    - done.
    - cbn [replicate foldl step].
      destruct (IH (event_loop_turn fg)) as (-> & -> & -> & -> & -> & ->).
      rewrite posted_event_loop_turn.
      destruct (event_loop_turn_registry fg) as (-> & -> & -> & -> & ->).
      split; [|done].
      destruct (posted fg); cbn [tail]; [by rewrite !drop_nil|done]. }
  split; [done|]. split; [|done].
  intros Hn. rewrite Hp. by apply drop_ge.
Qed.

(** *** The index replay over a run *)

Lemma posted_micro_false fg fg' :
  micro false fg fg' →
  ∃ hs, posted fg' = posted fg ++ hs
        ∧ Forall (λ t, is_go_through_index t = false) hs.
Proof.
  intros Hm.
  inversion Hm as [fg0 fg0' Hplain| | |remote fg0 Hadm|remote fg0 Hin| |]; subst.
  - destruct Hplain as (_ & _ & _ & _ & _ & _ & _ & _ & _ & -> & _).
    exists []. by rewrite app_nil_r.
  - rewrite push_state_eq. exists []. by rewrite app_nil_r.
  - rewrite handle_handshake_eq. eexists. split; [done|]. by repeat constructor.
  - rewrite (attach_admitted _ _ Hadm). exists []. by rewrite app_nil_r.
  - rewrite (detach_attached _ _ Hin). exists []. by rewrite app_nil_r.
Qed.

Lemma posted_rtc_micro_false fg fg' :
  rtc (micro false) fg fg' →
  ∃ hs, posted fg' = posted fg ++ hs
        ∧ Forall (λ t, is_go_through_index t = false) hs.
Proof.
  induction 1 as [fg|fg1 fg2 fg3 Hm _ (hs' & Hp' & Hhs')].
  - exists []. by rewrite app_nil_r.
  - destruct (posted_micro_false _ _ Hm) as (hs & Hp & Hhs).
    exists (hs ++ hs'). rewrite Hp', Hp, app_assoc. split; [done|].
    by apply Forall_app.
Qed.

Lemma replay_inv_step turned ev fg :
  replay_inv turned fg → replay_inv (turned || is_loop_turn ev) (step ev fg).
Proof.
  intros Hinv. destruct (is_loop_turn ev) eqn:Hev.
  - rewrite orb_true_r. destruct ev; try done. cbn [step replay_inv].
    rewrite posted_event_loop_turn. destruct turned; cbn [replay_inv] in Hinv.
    + destruct Hinv as [|t rest Ht Hrest]; [constructor|done].
    + by destruct Hinv as (hs & -> & Hhs).
  - rewrite orb_false_r.
    destruct (posted_rtc_micro_false _ _ (step_micro ev fg Hev))
      as (hs & Hp & Hhs).
    destruct turned; cbn [replay_inv] in *; rewrite Hp.
    + by apply Forall_app.
    + destruct Hinv as (hs0 & -> & Hhs0). exists (hs0 ++ hs).
      split; [done|]. by apply Forall_app.
Qed.

Lemma replay_inv_run evs turned fg :
  replay_inv turned fg → replay_inv (turned || has_loop_turn evs) (run evs fg).
Proof.
  unfold run, has_loop_turn. revert turned fg.
  induction evs as [|ev evs IH]; intros turned fg Hinv; cbn [foldl existsb].
  - by rewrite orb_false_r.
  - rewrite orb_assoc. by apply IH, replay_inv_step.
Qed.

Lemma meta_storage_run evs fg0 :
  meta_storage_ (run evs fg0) = meta_storage_ fg0
  ∧ params_ (run evs fg0) = params_ fg0
  ∧ state_pusher_ (run evs fg0) = state_pusher_ fg0.
Proof.
  apply (run_micro_invariant
           (λ fg', meta_storage_ fg' = meta_storage_ fg0
                   ∧ params_ fg' = params_ fg0
                   ∧ state_pusher_ fg' = state_pusher_ fg0)); [|done].
  intros k fg1 fg2 Hm (H1 & H2 & H3). micro_cases Hm; cbn; try done.
  by rewrite Hms, Hparams, Hsp.
Qed.

(** X9: the index replay is posted once, by the constructor, and runs on the
    first event-loop turn of the folder's life, whatever happened before it.
    Until that turn the replay is the first task of the queue and the only
    one of its kind; from that turn on no replay is ever pending again. *)
Theorem replay_runs_once (params : FolderParams) (ms : MetaStorage)
    (cs : ChunkStorage) (bc : BandwidthCounter) (evs : list Event) :
  let fg := run evs (FolderGroup_new params ms cs bc) in
  count_if is_go_through_index (posted fg)
  = (if has_loop_turn evs then 0 else 1)
  ∧ (has_loop_turn evs = false →
     head (posted fg)
     = Some {| task_context := this; task_functor := go_through_index |}).
Proof.
  cbn zeta.
  pose proof (replay_inv_run evs false (FolderGroup_new params ms cs bc))
    as Hinv.
  assert (replay_inv false (FolderGroup_new params ms cs bc)) as Hnew.
  { rewrite FolderGroup_new_eq. exists []. by split. }
  specialize (Hinv Hnew). cbn [orb] in Hinv.
  destruct (has_loop_turn evs); cbn [replay_inv] in Hinv.
  - split; [by apply count_if_none|done].
  - destruct Hinv as (hs & -> & Hhs). split; [|done].
    rewrite count_if_cons, count_if_none by done. done.
Qed.


(** *** The destructor, the ticker and the state collector *)

Lemma FolderGroup_delete_eq fg :
  FolderGroup_delete fg =
    mkFolderGroup (params_ fg) (meta_storage_ fg) (chunk_storage_ fg)
      (bandwidth_counter_ fg)
      {| interval := interval (state_pusher_ fg); active := false |}
      (remotes_ fg) (remotes_ready_ fg)
      (p2p_folders_endpoints_ fg) (p2p_folders_digests_ fg)
      (connections fg) (posted fg)
      (log fg ++
         [on_state_collector
            (StateCollector.folder_state_purge
               (conv_bytearray (get_Hash (secret (params_ fg)))));
          LOGFUNC "~FolderGroup"]).
Proof.
  trim. unfold FolderGroup_delete. destruct fg. run_actions.
  by rewrite <- app_assoc.
Qed.

Lemma plain_keyed_by id es :
  Forall (λ e, plain e = true) es → Forall (λ e, keyed_by id e = true) es.
Proof.
  trim. intros Hes. eapply Forall_impl; [exact Hes|].
  by intros [| | | | | | |[]| |].
Qed.

Lemma keyed_by_micro k params fg fg' :
  micro k fg fg' →
  params_ fg = params
  ∧ Forall (λ e, keyed_by (conv_bytearray (get_Hash (secret params))) e = true)
      (log fg) →
  params_ fg' = params
  ∧ Forall (λ e, keyed_by (conv_bytearray (get_Hash (secret params))) e = true)
      (log fg').
Proof.
  intros Hm [Hpar Hkeys]. micro_cases Hm; cbn [params_ log].
  - rewrite Hparams, Hlog. split; [done|]. apply Forall_app.
    split; [done|by apply plain_keyed_by].
  - split; [done|]. apply Forall_app. split; [done|].
    unfold folderid. rewrite Hpar. repeat constructor; cbn; by case_bool_decide.
  - split; [done|]. apply Forall_app. split; [done|]. by repeat constructor.
  - split; [done|]. apply Forall_app. split; [done|]. by repeat constructor.
  - split; [done|]. apply Forall_app. split; [done|]. by repeat constructor.
  - split; [done|]. apply Forall_app. split; [done|].
    apply plain_keyed_by, indexed_meta_calls_plain.
  - split; [done|]. apply Forall_app. split; [done|]. by repeat constructor.
Qed.

(** X11: over the whole life of a folder every call on the state collector
    carries the same folder id, the hash of the secret the folder was
    constructed with: the ["secret"] entry of the constructor, the ["peers"]
    and ["traffic_stats"] entries of every [push_state()], and the purge of
    the destructor.  The destructor purges exactly the id everything was
    published under. *)
Theorem state_keyed_by_folder_id (params : FolderParams) (ms : MetaStorage)
    (cs : ChunkStorage) (bc : BandwidthCounter) (evs : list Event) :
  let fg := run evs (FolderGroup_new params ms cs bc) in
  let id := conv_bytearray (get_Hash (secret params)) in
  folderid fg = id
  ∧ effects_of FolderGroup_delete fg
    = [on_state_collector (StateCollector.folder_state_purge id);
       LOGFUNC "~FolderGroup"]
  ∧ Forall (λ e, keyed_by id e = true) (log (FolderGroup_delete fg)).
Proof.
  cbn zeta.
  assert (params_ (run evs (FolderGroup_new params ms cs bc)) = params
          ∧ Forall (λ e, keyed_by (conv_bytearray (get_Hash (secret params))) e
                         = true)
              (log (run evs (FolderGroup_new params ms cs bc)))) as [Hpar Hkeys].
  { apply (run_micro_invariant
             (λ fg, params_ fg = params
                    ∧ Forall (λ e, keyed_by
                                     (conv_bytearray (get_Hash (secret params)))
                                     e = true) (log fg))).
    - intros k fg fg' Hm. by apply (keyed_by_micro k).
    - rewrite FolderGroup_new_eq. split; [done|]. cbn [log].
      repeat constructor; cbn; by case_bool_decide. }
  split; [unfold folderid; by rewrite Hpar|].
  split.
  - apply effects_of_app. rewrite FolderGroup_delete_eq. cbn [log].
    by rewrite Hpar.
  - rewrite FolderGroup_delete_eq. cbn [log]. apply Forall_app.
    split; [done|]. rewrite Hpar. repeat constructor; cbn; by case_bool_decide.
Qed.


(** *** A downloaded chunk *)

(** X13: in every state reached from a new FolderGroup, a
    [Downloader::chunkDownloaded(ct_hash, chunk)] goes to
    [ChunkStorage::put_chunk] and nowhere else: the coordinator makes no
    other call, announces the chunk to no peer (that waits for
    [chunkAdded]), and its registry, connections and queue stay as they
    are. *)
Theorem chunk_downloaded_stored (params : FolderParams) (ms : MetaStorage)
    (cs : ChunkStorage) (bc : BandwidthCounter) (evs : list Event)
    (ct_hash chunk : blob) :
  let fg := run evs (FolderGroup_new params ms cs bc) in
  let fg' := deliver downloader_obj (chunkDownloaded ct_hash chunk) fg in
  effects_of (deliver downloader_obj (chunkDownloaded ct_hash chunk)) fg
  = [on_chunk_storage_put_chunk ct_hash chunk]
  ∧ chunk_storage_ fg' = put_chunk (chunk_storage_ fg) ct_hash chunk
  ∧ have_chunk_sent
      (effects_of (deliver downloader_obj (chunkDownloaded ct_hash chunk)) fg)
    = []
  ∧ remotes_ fg' = remotes_ fg
  ∧ remotes_ready_ fg' = remotes_ready_ fg
  ∧ connections fg' = connections fg
  ∧ posted fg' = posted fg.
Proof.
  cbn zeta.
  assert (wiring (run evs (FolderGroup_new params ms cs bc))) as Hw.
  { apply run_invariant; [apply wiring_step|apply wiring_new]. }
  set (fg := run evs (FolderGroup_new params ms cs bc)) in *.
  assert (deliver downloader_obj (chunkDownloaded ct_hash chunk) fg
          = mkFolderGroup (params_ fg) (meta_storage_ fg)
              (put_chunk (chunk_storage_ fg) ct_hash chunk)
              (bandwidth_counter_ fg) (state_pusher_ fg)
              (remotes_ fg) (remotes_ready_ fg)
              (p2p_folders_endpoints_ fg) (p2p_folders_digests_ fg)
              (connections fg) (posted fg)
              (log fg ++ [on_chunk_storage_put_chunk ct_hash chunk])) as Heq.
  { unfold deliver.
    assert (receivers downloader_obj (chunkDownloaded ct_hash chunk) fg
            = [slot_put_chunk]) as ->.
    { rewrite receivers_own by done. reflexivity. }
    cbn [foldl run_slot]. by destruct fg. }
  assert (effects_of (deliver downloader_obj (chunkDownloaded ct_hash chunk)) fg
          = [on_chunk_storage_put_chunk ct_hash chunk]) as Heff.
  { apply effects_of_app. by rewrite Heq. }
  rewrite Heff, Heq. done.
Qed.

(** *** log_tag *)

(** X14: [log_tag()] is the folder's path, or its system path when the path
    is empty, and it is the same at every moment of the folder's life: no
    call, signal or event-loop turn changes the parameters the folder was
    constructed with. *)
Theorem log_tag_constant (params : FolderParams) (ms : MetaStorage)
    (cs : ChunkStorage) (bc : BandwidthCounter) (evs : list Event) :
  let fg := run evs (FolderGroup_new params ms cs bc) in
  params_ fg = params
  ∧ (path params ≠ EmptyString → log_tag fg = path params)
  ∧ (path params = EmptyString → log_tag fg = system_path params).
Proof.
  cbn zeta.
  destruct (meta_storage_run evs (FolderGroup_new params ms cs bc))
    as (_ & Hpar & _).
  rewrite FolderGroup_new_eq in Hpar at 2. cbn [params_] in Hpar.
  split; [done|]. unfold log_tag. rewrite Hpar.
  split; intros Hpath; by case_bool_decide.
Qed.

(** *** attach then detach *)

(** X15: a [detach(p)] right after a successful [attach(p)] gives back the
    three indices as they were before the [attach] (and the ready set, when
    [p] was not in it); [attached(p)] and [detached(p)] are emitted on the
    same registry, the one that holds [p]. *)
Theorem attach_detach_round_trip (remote : ptr) (fg : FolderGroup) :
  (attach remote fg).1 = true →
  let fg' := detach remote (attach remote fg).2 in
  remotes_ fg' = remotes_ fg
  ∧ p2p_folders_digests_ fg' = p2p_folders_digests_ fg
  ∧ p2p_folders_endpoints_ fg' = p2p_folders_endpoints_ fg
  ∧ (remote ∉ remotes_ready_ fg → remotes_ready_ fg' = remotes_ready_ fg)
  ∧ effects_of (λ fg, detach remote (attach remote fg).2) fg
    = [LOGD ["Attached remote "; displayName remote];
       emitted (attached remote) (registry (attach remote fg).2);
       emitted (detached remote) (registry (attach remote fg).2);
       on_downloader (Downloader.untrackRemote remote);
       LOGD ["Detached remote "; displayName remote]].
Proof.
  trim.
  intros Hadm. cbn zeta.
  assert (remote ∈ remotes_ (attach remote fg).2) as Hin.
  { rewrite (attach_admitted _ _ Hadm). cbn. set_solver. }
  pose proof Hadm as (Hr & Hd & He)%attach_admits_iff.
  split; [|split; [|split; [|split]]].
  - rewrite (detach_attached _ _ Hin), (attach_admitted _ _ Hadm). cbn.
    set_solver.
  - rewrite (detach_attached _ _ Hin), (attach_admitted _ _ Hadm). cbn.
    set_solver.
  - rewrite (detach_attached _ _ Hin), (attach_admitted _ _ Hadm). cbn.
    set_solver.
  - intros Hnr. rewrite (detach_attached _ _ Hin), (attach_admitted _ _ Hadm).
    cbn. set_solver.
  - apply effects_of_app. rewrite (detach_attached _ _ Hin). cbn [log].
    rewrite (attach_admitted _ _ Hadm). cbn [log registry remotes_
      p2p_folders_endpoints_ p2p_folders_digests_ remotes_ready_].
    by rewrite <- app_assoc.
Qed.

(** *** A remote's signals and the calls they cause *)

Lemma run_slot_about q sl s fg :
  slot_origin sl = Some q →
  ∃ es, log (run_slot sl s fg) = log fg ++ es
        ∧ Forall (λ e, about_only q e = true) es.
Proof.
  intros Ho.
  destruct sl; try discriminate; injection Ho as ->; destruct s;
    cbn [run_slot];
    first [ by (exists []; rewrite app_nil_r)
          | by (rewrite handle_handshake_eq; eexists; split; [reflexivity|];
                repeat constructor; unfold about_only; cbn; case_bool_decide)
          | by (rewrite log_effect; eexists; split; [reflexivity|];
                repeat constructor; unfold about_only; cbn; case_bool_decide) ].
Qed.

Lemma foldl_about q s l fg :
  Forall (λ sl, slot_origin sl = Some q) l →
  ∃ es, log (foldl (λ fg sl, run_slot sl s fg) fg l) = log fg ++ es
        ∧ Forall (λ e, about_only q e = true) es.
Proof.
  intros Hl. revert fg. induction Hl as [|sl l Hsl _ IH]; intros fg; cbn [foldl].
  - exists []. by rewrite app_nil_r.
  - destruct (run_slot_about q sl s fg Hsl) as (es & Hlog & Hes).
    destruct (IH (run_slot sl s fg)) as (es' & Hlog' & Hes').
    exists (es ++ es'). rewrite Hlog', Hlog, app_assoc. split; [done|].
    by apply Forall_app.
Qed.

(** X16: in every state reached from a new FolderGroup, a signal emitted by
    a remote [q] activates only lambdas that captured [q], and every call
    it causes on the Downloader, the Uploader, the MetaDownloader or the
    MetaUploader that names a remote names [q]: what one peer sends is never
    booked on another peer. *)
Theorem no_cross_peer_delivery (params : FolderParams) (ms : MetaStorage)
    (cs : ChunkStorage) (bc : BandwidthCounter) (evs : list Event)
    (q : ptr) (s : Signal) :
  let fg := run evs (FolderGroup_new params ms cs bc) in
  Forall (λ sl, slot_origin sl = Some q) (receivers (remote_obj q) s fg)
  ∧ Forall (λ e, about_only q e = true)
      (effects_of (deliver (remote_obj q) s) fg).
Proof.
  cbn zeta.
  assert (wiring (run evs (FolderGroup_new params ms cs bc))) as Hw.
  { apply run_invariant; [apply wiring_step|apply wiring_new]. }
  set (fg := run evs (FolderGroup_new params ms cs bc)) in *.
  assert (Forall (λ sl, slot_origin sl = Some q)
            (receivers (remote_obj q) s fg)) as Hslots.
  { apply Forall_forall. intros sl Hin.
    destruct Hw as (peers & Hp & Hpeers). unfold receivers in Hin.
    apply list_elem_of_fmap in Hin as (c & -> & Hc).
    apply list_elem_of_filter in Hc as [[Hsender _] Hc].
    rewrite Hp in Hc. apply elem_of_app in Hc as [Hc|Hc].
    - unfold own_connections in Hc. set_unfold in Hc.
      destruct Hc as [->| [->| [->| [->|[]]]]]; discriminate.
    - rewrite Forall_forall in Hpeers.
      destruct (Hpeers c Hc) as (r & Hs & Ho). congruence. }
  split; [done|].
  destruct (foldl_about q s _ fg Hslots) as (es & Hlog & Hes).
  unfold effects_of, deliver. by rewrite Hlog, drop_app_length.
Qed.

(** *** One remote's detach and the others *)

(** X17: in every state reached from a new FolderGroup, [detach(p)] leaves
    every other attached remote attached, with its digest and its endpoint
    still registered and its readiness unchanged: no attached remote shares
    the digest or the endpoint that [detach(p)] removes. *)
Theorem detach_spares_others (params : FolderParams) (ms : MetaStorage)
    (cs : ChunkStorage) (bc : BandwidthCounter) (evs : list Event)
    (p q : ptr) :
  let fg := run evs (FolderGroup_new params ms cs bc) in
  q ≠ p → q ∈ remotes_ fg →
  q ∈ remotes_ (detach p fg)
  ∧ digest q ∈ p2p_folders_digests_ (detach p fg)
  ∧ endpoint q ∈ p2p_folders_endpoints_ (detach p fg)
  ∧ (q ∈ remotes_ready_ (detach p fg) ↔ q ∈ remotes_ready_ fg).
Proof.
  cbn zeta. intros Hne Hq.
  pose proof (run_invariant registry_inv evs _ registry_inv_step
                (registry_inv_new params ms cs bc))
    as ((Hdig & Hend & Hinjd & Hinje) & _).
  set (fg := run evs (FolderGroup_new params ms cs bc)) in *.
  destruct (decide (p ∈ remotes_ fg)) as [Hp|Hp].
  - rewrite (detach_attached _ _ Hp). cbn. repeat split.
    + set_solver.
    + apply elem_of_difference. split; [apply Hdig; eauto|].
      intros Heq%elem_of_singleton. apply Hne. by apply Hinjd.
    + apply elem_of_difference. split; [apply Hend; eauto|].
      intros Heq%elem_of_singleton. apply Hne. by apply Hinje.
    + set_solver.
    + set_solver.
  - rewrite (detach_not_attached _ _ Hp). repeat split; try done.
    + apply Hdig; eauto.
    + apply Hend; eauto.
Qed.

(** *** What the listeners of attached and detached see *)

Lemma emitted_on_registered_micro k fg fg' :
  micro k fg fg' →
  registry_inv fg ∧ Forall emitted_on_registered (log fg) →
  registry_inv fg' ∧ Forall emitted_on_registered (log fg').
Proof.
  intros Hm [Hinv Hlog0].
  assert (∀ es, Forall (λ e, plain e = true) es →
                Forall emitted_on_registered es) as Hplain.
  { intros es Hes. eapply Forall_impl; [exact Hes|]. by intros []. }
  destruct Hm as
    [ fg fg' (Hparams & Hms & Hbc & Hsp & Hrem & Hready & Hend & Hdig & Hconn
              & Hposted & es & Hlog & Hes)
    | fg | origin fg | remote fg Hadm | remote fg Hin
    | t rest fg Hp Ht | t rest origin fg Hp Ht ].
  - split.
    + unfold registry_inv, registry_bijective in *. by rewrite Hrem, Hdig, Hend.
    + rewrite Hlog. apply Forall_app. split; [done|by apply Hplain].
  - split; [eapply registry_inv_frame; [apply frame_push_state|done]|].
    rewrite push_state_eq. cbn [log]. apply Forall_app. split; [done|].
    by repeat constructor.
  - split; [eapply registry_inv_frame; [apply frame_handle_handshake|done]|].
    rewrite handle_handshake_eq. cbn [log]. apply Forall_app. split; [done|].
    by repeat constructor.
  - split; [by apply registry_inv_attach|].
    rewrite (attach_admitted _ _ Hadm). cbn [log]. apply Forall_app.
    split; [done|]. constructor; [done|]. constructor; [|constructor].
    cbn. set_solver.
  - split; [by apply registry_inv_detach|].
    rewrite (detach_attached _ _ Hin). cbn [log]. apply Forall_app.
    split; [done|]. constructor; [|by repeat constructor]. cbn.
    destruct Hinv as ((Hdig & Hend & _) & _).
    split; [done|]. split; [apply Hdig; eauto|apply Hend; eauto].
  - split; [eapply registry_inv_frame; [apply frame_event_loop_turn|done]|].
    rewrite (event_loop_turn_go_through_index _ _ _ Hp Ht). cbn [log].
    apply Forall_app. split; [done|]. apply Hplain, indexed_meta_calls_plain.
  - split; [eapply registry_inv_frame; [apply frame_event_loop_turn|done]|].
    rewrite (event_loop_turn_meta_uploader_handshake _ _ _ _ Hp Ht). cbn [log].
    apply Forall_app. split; [done|]. by repeat constructor.
Qed.

(** X18: over every run from a new FolderGroup, each [attached(p)] and each
    [detached(p)] is emitted on a registry in which [p] is attached and its
    digest and its endpoint are registered: [attach] emits after its
    inserts, [detach] before its removals, and nothing else emits either
    signal. *)
Theorem emitted_sees_remote (params : FolderParams) (ms : MetaStorage)
    (cs : ChunkStorage) (bc : BandwidthCounter) (evs : list Event) :
  Forall emitted_on_registered
    (log (run evs (FolderGroup_new params ms cs bc))).
Proof.
  apply (run_micro_invariant
           (λ fg, registry_inv fg ∧ Forall emitted_on_registered (log fg))).
  - apply emitted_on_registered_micro.
  - split; [apply registry_inv_new|].
    rewrite FolderGroup_new_eq. by repeat constructor.
Qed.

End FolderGroup.

(** ** The statements on the sample collaborators *)

#[local] Abbreviation sample_new :=
  (FolderGroup_new Sample.params ([] : list SignedMeta) (∅ : gset blob) tt).
#[local] Abbreviation sample_run :=
  (run Sample.getMeta Sample.make_bitfield Sample.put_chunk
     Sample.heartbeat_json Sample.digest Sample.endpoint Sample.displayName
     Sample.collect_state).
#[local] Abbreviation sample_deliver :=
  (deliver Sample.make_bitfield Sample.put_chunk Sample.heartbeat_json
     Sample.collect_state).

(** Remote 1 is attached; remote 2 is another session of the same peer, with
    the same digest and another endpoint.  Remote 2 is not attached and its
    endpoint is not registered, yet its digest is. *)
Lemma registry_iff_chain_fails :
  ¬ registry_iff_chain Sample.same_peer_digest Sample.endpoint
      (run Sample.getMeta Sample.make_bitfield Sample.put_chunk
         Sample.heartbeat_json Sample.same_peer_digest Sample.endpoint
         Sample.displayName Sample.collect_state
         [call_attach 1%positive] sample_new).
Proof.
  intros H. destruct (H 2%positive) as [[_ Hback] _].
  assert (2%positive ∉ remotes_
            (run Sample.getMeta Sample.make_bitfield Sample.put_chunk
               Sample.heartbeat_json Sample.same_peer_digest Sample.endpoint
               Sample.displayName Sample.collect_state
               [call_attach 1%positive] sample_new)) as Hout
    by compute_done.
  apply Hout, Hback. compute_done.
Qed.

(** After [attach(1); detach(1)] the [handshakeSuccess] connection of remote
    1 is still in the table. *)
Lemma detach_releases_fails :
  ¬ detach_releases Sample.make_bitfield Sample.put_chunk
      Sample.heartbeat_json Sample.digest Sample.endpoint Sample.displayName
      Sample.collect_state 1%positive
      (sample_run [call_attach 1%positive] sample_new).
Proof. intros [Hsubs _]. vm_compute in Hsubs. discriminate. Qed.

(** ... and a handshake of the detached remote reaches the Downloader. *)
Example handshake_after_detach :
  effects_of (sample_deliver (remote_obj 1%positive) handshakeSuccess)
    (sample_run [call_attach 1%positive; call_detach 1%positive] sample_new)
  = [on_downloader (Downloader.trackRemote 1%positive)].
Proof. vm_compute. reflexivity. Qed.

(** [attach(1); detach(1)], then remote 1 completes its handshake: it is
    ready and not attached. *)
Lemma ready_outlives_detach :
  ¬ (remotes_ready_
       (sample_run [call_attach 1%positive; call_detach 1%positive;
                    signal_from (remote_obj 1%positive) handshakeSuccess]
          sample_new)
     ⊆ remotes_
         (sample_run [call_attach 1%positive; call_detach 1%positive;
                      signal_from (remote_obj 1%positive) handshakeSuccess]
            sample_new)).
Proof. compute_done. Qed.

Lemma ready_subset_remotes_witness :
  handshakes_while_attached Sample.getMeta Sample.make_bitfield
    Sample.put_chunk Sample.heartbeat_json Sample.digest Sample.endpoint
    Sample.displayName Sample.collect_state
    [call_attach 1%positive; call_attach 2%positive;
     signal_from (remote_obj 1%positive) handshakeSuccess;
     signal_from (remote_obj 2%positive) handshakeSuccess;
     loop_turn; call_detach 1%positive]
    sample_new = true
  ∧ elements
      (remotes_ready_
         (sample_run
            [call_attach 1%positive; call_attach 2%positive;
             signal_from (remote_obj 1%positive) handshakeSuccess;
             signal_from (remote_obj 2%positive) handshakeSuccess;
             loop_turn; call_detach 1%positive]
            sample_new)) = [2%positive]
  ∧ remotes_ready_
      (sample_run
         [call_attach 1%positive; call_attach 2%positive;
          signal_from (remote_obj 1%positive) handshakeSuccess;
          signal_from (remote_obj 2%positive) handshakeSuccess;
          loop_turn; call_detach 1%positive]
         sample_new)
    ⊆ remotes_
        (sample_run
           [call_attach 1%positive; call_attach 2%positive;
            signal_from (remote_obj 1%positive) handshakeSuccess;
            signal_from (remote_obj 2%positive) handshakeSuccess;
            loop_turn; call_detach 1%positive]
           sample_new).
Proof.
  split; [vm_compute; reflexivity|].
  split; [vm_compute; reflexivity|].
  apply ready_subset_remotes. vm_compute. reflexivity.
Defined.

(** Remote 1 is attached and has not handshaken; ChunkStorage announces a
    chunk: [HaveChunk] is addressed to remote 1. *)
Lemma have_chunk_to_unready_peer :
  ¬ have_chunk_only_to_ready Sample.make_bitfield Sample.put_chunk
      Sample.heartbeat_json Sample.collect_state [10%N]
      (sample_run [call_attach 1%positive] sample_new).
Proof.
  intros H.
  assert (1%positive ∉ remotes_ready_
                         (sample_run [call_attach 1%positive] sample_new))
    as Hout by compute_done.
  apply Hout, H. compute_done.
Qed.

(** *** The theorems at work *)

(** Duplicate attach: the first [attach(1)] admits, the second is refused
    and leaves the FolderGroup as it was. *)
Lemma attach_spec_witness :
  (attach Sample.digest Sample.endpoint Sample.displayName 1%positive
     sample_new).1 = true
  ∧ attach Sample.digest Sample.endpoint Sample.displayName 1%positive
      (attach Sample.digest Sample.endpoint Sample.displayName 1%positive
         sample_new).2
    = (false,
       (attach Sample.digest Sample.endpoint Sample.displayName 1%positive
          sample_new).2).
Proof.
  split; [vm_compute; reflexivity|].
  destruct (attach_spec Sample.digest Sample.endpoint Sample.displayName
              1%positive sample_new) as (_ & _ & _ & Hagain).
  apply Hagain. vm_compute. reflexivity.
Defined.

(** Detach of an attached remote: [detached] is emitted on a registry that
    still holds the remote, and the remote is gone afterwards. *)
Lemma detach_spec_witness :
  1%positive ∈ remotes_ (sample_run [call_attach 1%positive] sample_new)
  ∧ 1%positive
      ∈ seen_remotes (registry (sample_run [call_attach 1%positive] sample_new))
  ∧ 1%positive
      ∉ remotes_
          (detach Sample.digest Sample.endpoint Sample.displayName 1%positive
             (sample_run [call_attach 1%positive] sample_new)).
Proof.
  assert (1%positive
            ∈ remotes_ (sample_run [call_attach 1%positive] sample_new))
    as Hin by compute_done.
  split; [exact Hin|].
  destruct (detach_spec Sample.digest Sample.endpoint Sample.displayName
              1%positive (sample_run [call_attach 1%positive] sample_new))
    as (_ & _ & Hatt).
  destruct (Hatt Hin) as (_ & Hseen & _ & _ & _ & _ & _ & _ & Hgone & _).
  split; [exact Hseen|exact Hgone].
Defined.

(** After [attach(1); detach(1)] a handshake of remote 1 makes it ready. *)
Lemma detach_keeps_subscriptions_witness :
  (attach Sample.digest Sample.endpoint Sample.displayName 1%positive
     sample_new).1 = true
  ∧ 1%positive
      ∈ remotes_ready_
          (sample_deliver (remote_obj 1%positive) handshakeSuccess
             (detach Sample.digest Sample.endpoint Sample.displayName
                1%positive
                (attach Sample.digest Sample.endpoint Sample.displayName
                   1%positive sample_new).2)).
Proof.
  assert ((attach Sample.digest Sample.endpoint Sample.displayName 1%positive
             sample_new).1 = true) as Hadm by (vm_compute; reflexivity).
  split; [exact Hadm|].
  destruct (detach_keeps_subscriptions Sample.make_bitfield Sample.put_chunk
              Sample.heartbeat_json Sample.digest Sample.endpoint
              Sample.displayName Sample.collect_state 1%positive sample_new)
    as (_ & _ & _ & _ & Hafter).
  destruct (Hafter Hadm) as (_ & _ & Hready). exact Hready.
Defined.

(** Two remotes attached, one chunk announced once: each is sent one
    [HaveChunk]. *)
Lemma have_chunk_broadcast_witness :
  chunkAdded_count [10%N]
    [call_attach 1%positive; call_attach 2%positive;
     signal_from chunk_storage_obj (chunkAdded [10%N])] ≤ 1
  ∧ sent_count 1%positive [10%N]
      (log (sample_run
              [call_attach 1%positive; call_attach 2%positive;
               signal_from chunk_storage_obj (chunkAdded [10%N])]
              sample_new)) ≤ 1.
Proof.
  assert (chunkAdded_count [10%N]
            [call_attach 1%positive; call_attach 2%positive;
             signal_from chunk_storage_obj (chunkAdded [10%N])] ≤ 1)
    as Hcount by (vm_compute; lia).
  split; [exact Hcount|].
  destruct (have_chunk_broadcast Sample.getMeta Sample.make_bitfield
              Sample.put_chunk Sample.heartbeat_json Sample.digest
              Sample.endpoint Sample.displayName Sample.collect_state
              Sample.params [] ∅ tt
              [call_attach 1%positive; call_attach 2%positive;
               signal_from chunk_storage_obj (chunkAdded [10%N])] [10%N])
    as (_ & _ & _ & Honce).
  exact (Honce Hcount 1%positive).
Defined.

(** The first handshake of an attached remote: a choke then reaches the
    Downloader, once, and the deferred MetaUploader call waits for the loop. *)
Lemma handle_handshake_spec_witness :
  first_handshake 1%positive (sample_run [call_attach 1%positive; loop_turn]
                                sample_new)
  ∧ posted (sample_run [call_attach 1%positive; loop_turn] sample_new) = []
  ∧ effects_of (sample_deliver (remote_obj 1%positive) rcvdChoke)
      (sample_run [call_attach 1%positive; loop_turn] sample_new) = []
  ∧ effects_of (sample_deliver (remote_obj 1%positive) rcvdChoke)
      (handle_handshake 1%positive
         (sample_run [call_attach 1%positive; loop_turn] sample_new))
    = effects_of (sample_deliver (remote_obj 1%positive) rcvdChoke)
        (sample_run [call_attach 1%positive; loop_turn] sample_new)
      ++ [on_downloader (Downloader.handleChoke 1%positive)]
  ∧ effects_of (event_loop_turn Sample.getMeta Sample.make_bitfield)
      (handle_handshake 1%positive
         (sample_run [call_attach 1%positive; loop_turn] sample_new))
    = [on_meta_uploader (MetaUploader.handle_handshake 1%positive)].
Proof.
  assert (first_handshake 1%positive
            (sample_run [call_attach 1%positive; loop_turn] sample_new))
    as Hfirst.
  { unfold first_handshake. vm_compute. repeat constructor. }
  assert (posted (sample_run [call_attach 1%positive; loop_turn] sample_new)
          = []) as Hposted by (vm_compute; reflexivity).
  destruct (handle_handshake_spec Sample.getMeta Sample.make_bitfield
              Sample.put_chunk Sample.heartbeat_json Sample.collect_state
              1%positive
              (sample_run [call_attach 1%positive; loop_turn] sample_new))
    as (_ & _ & _ & _ & _ & _ & _ & _ & _ & Hturn & Hbefore & Hchoke & _).
  split; [exact Hfirst|]. split; [exact Hposted|].
  split; [exact (Hbefore Hfirst rcvdChoke eq_refl)|].
  split; [exact Hchoke|exact (Hturn Hposted)].
Defined.

(** A second session of the attached peer, over another address; a second
    session from the attached address. *)
Lemma attach_duplicate_rejected_witness :
  attach Sample.same_peer_digest Sample.endpoint Sample.displayName 2%positive
    (attach Sample.same_peer_digest Sample.endpoint Sample.displayName
       1%positive sample_new).2
  = (false,
     (attach Sample.same_peer_digest Sample.endpoint Sample.displayName
        1%positive sample_new).2)
  ∧ attach Sample.digest Sample.same_endpoint Sample.displayName 2%positive
      (attach Sample.digest Sample.same_endpoint Sample.displayName
         1%positive sample_new).2
    = (false,
       (attach Sample.digest Sample.same_endpoint Sample.displayName
          1%positive sample_new).2).
Proof.
  split.
  - apply attach_duplicate_rejected. left. compute_done.
  - apply attach_duplicate_rejected. right. compute_done.
Defined.

Lemma reattach_doubles_handshake_witness :
  (attach Sample.digest Sample.endpoint Sample.displayName 1%positive
     sample_new).1 = true
  ∧ subscriptions 1%positive sample_new = []
  ∧ effects_of (sample_deliver (remote_obj 1%positive) handshakeSuccess)
      (sample_run [call_attach 1%positive; call_detach 1%positive;
                   call_attach 1%positive] sample_new)
    = [on_downloader (Downloader.trackRemote 1%positive);
       on_downloader (Downloader.trackRemote 1%positive)].
Proof.
  assert ((attach Sample.digest Sample.endpoint Sample.displayName 1%positive
             sample_new).1 = true) as Hadm by (vm_compute; reflexivity).
  assert (subscriptions 1%positive sample_new = []) as Hs
    by (vm_compute; reflexivity).
  split; [exact Hadm|]. split; [exact Hs|].
  destruct (reattach_doubles_handshake Sample.make_bitfield Sample.put_chunk
              Sample.heartbeat_json Sample.digest Sample.endpoint
              Sample.displayName Sample.collect_state 1%positive sample_new
              Hadm) as (_ & _ & Htwice).
  exact (Htwice Hs).
Defined.


(** Three attaches and a detach: two remotes stay, with two digests and two
    endpoints. *)
Lemma registry_reachable_witness :
  size (remotes_
          (sample_run [call_attach 1%positive; call_attach 2%positive;
                       call_attach 3%positive; call_detach 2%positive]
             sample_new)) = 2
  ∧ size (remotes_
            (sample_run [call_attach 1%positive; call_attach 2%positive;
                         call_attach 3%positive; call_detach 2%positive]
               sample_new))
    = size (p2p_folders_digests_
              (sample_run [call_attach 1%positive; call_attach 2%positive;
                           call_attach 3%positive; call_detach 2%positive]
                 sample_new)).
Proof.
  split; [vm_compute; reflexivity|].
  destruct (registry_reachable Sample.getMeta Sample.make_bitfield
              Sample.put_chunk Sample.heartbeat_json Sample.digest
              Sample.endpoint Sample.displayName Sample.collect_state
              Sample.params [] ∅ tt
              [call_attach 1%positive; call_attach 2%positive;
               call_attach 3%positive; call_detach 2%positive])
    as (_ & _ & Hsize & _).
  exact Hsize.
Defined.

(** A new meta is indexed while remote 1 is attached. *)
Lemma handle_indexed_meta_spec_witness :
  effects_of (sample_deliver meta_storage_obj (metaAdded Sample.smeta1))
    (sample_run [call_attach 1%positive] sample_new)
  = [on_downloader (Downloader.notifyLocalMeta Sample.smeta1 [false; false]);
     on_meta_uploader
       (MetaUploader.broadcast_meta [1%positive]
          {| path_id_ := [7%N]; revision_ := 1 |} [false; false])]
  ∧ sample_deliver meta_storage_obj (metaAdded Sample.smeta1)
      (sample_run [call_attach 1%positive] sample_new)
    = handle_indexed_meta Sample.make_bitfield Sample.smeta1
        (sample_run [call_attach 1%positive] sample_new).
Proof.
  split; [vm_compute; reflexivity|].
  destruct (handle_indexed_meta_spec Sample.getMeta Sample.make_bitfield
              Sample.put_chunk Sample.heartbeat_json Sample.digest
              Sample.endpoint Sample.displayName Sample.collect_state
              Sample.smeta1) as (_ & Hsignal).
  destruct (Hsignal Sample.params [] ∅ tt [call_attach 1%positive])
    as (_ & Hruns).
  exact Hruns.
Defined.

(** A folder that starts with two metas in its index: the replay makes two
    broadcasts. *)
Lemma startup_replay_witness :
  length
    (filter (λ e, is_broadcast_meta e = true)
       (effects_of (event_loop_turn Sample.getMeta Sample.make_bitfield)
          (FolderGroup_new Sample.params [Sample.smeta1; Sample.smeta2]
             (∅ : gset blob) tt)))
  = 2.
Proof.
  destruct (startup_replay Sample.getMeta Sample.make_bitfield Sample.params
              [Sample.smeta1; Sample.smeta2] (∅ : gset blob) tt)
    as (_ & _ & _ & _ & Hcount & _).
  exact Hcount.
Defined.

(** Three remotes, one of them handshaken: the peers array has three
    entries. *)
Lemma push_state_spec_witness :
  length
    (map Sample.collect_state
       (elements
          (remotes_
             (sample_run
                [call_attach 1%positive; call_attach 2%positive;
                 call_attach 3%positive;
                 signal_from (remote_obj 2%positive) handshakeSuccess]
                sample_new)))) = 3.
Proof.
  destruct (push_state_spec Sample.heartbeat_json Sample.collect_state
              (sample_run
                 [call_attach 1%positive; call_attach 2%positive;
                  call_attach 3%positive;
                  signal_from (remote_obj 2%positive) handshakeSuccess]
                 sample_new)) as (_ & Hlen & _).
  rewrite Hlen. vm_compute. reflexivity.
Defined.

(** *** Runs of the sample folder *)

(** A handshake that arrives after the detach: remote 1 is ready, and the
    Downloader's latest instruction about it is to track it. *)
Lemma ready_iff_tracked_witness :
  tracked 1%positive
    (log (sample_run [call_attach 1%positive; call_detach 1%positive;
                      signal_from (remote_obj 1%positive) handshakeSuccess]
            sample_new)) = true
  ∧ 1%positive
      ∈ remotes_ready_
          (sample_run [call_attach 1%positive; call_detach 1%positive;
                       signal_from (remote_obj 1%positive) handshakeSuccess]
             sample_new).
Proof.
  assert (tracked 1%positive
            (log (sample_run
                    [call_attach 1%positive; call_detach 1%positive;
                     signal_from (remote_obj 1%positive) handshakeSuccess]
                    sample_new)) = true) as Ht by (vm_compute; reflexivity).
  split; [exact Ht|].
  exact (proj2 (ready_iff_tracked Sample.getMeta Sample.make_bitfield
                  Sample.put_chunk Sample.heartbeat_json Sample.digest
                  Sample.endpoint Sample.displayName Sample.collect_state
                  Sample.params [] ∅ tt
                  [call_attach 1%positive; call_detach 1%positive;
                   signal_from (remote_obj 1%positive) handshakeSuccess]
                  1%positive) Ht).
Defined.

(** Attach, a refused second attach, detach, attach again. *)
Lemma attached_iff_announced_witness :
  announced 1%positive
    (log (sample_run [call_attach 1%positive; call_attach 1%positive;
                      call_detach 1%positive; call_attach 1%positive]
            sample_new)) = true
  ∧ 1%positive
      ∈ remotes_
          (sample_run [call_attach 1%positive; call_attach 1%positive;
                       call_detach 1%positive; call_attach 1%positive]
             sample_new).
Proof.
  assert (announced 1%positive
            (log (sample_run
                    [call_attach 1%positive; call_attach 1%positive;
                     call_detach 1%positive; call_attach 1%positive]
                    sample_new)) = true) as Ha by (vm_compute; reflexivity).
  split; [exact Ha|].
  exact (proj2 (attached_iff_announced Sample.getMeta Sample.make_bitfield
                  Sample.put_chunk Sample.heartbeat_json Sample.digest
                  Sample.endpoint Sample.displayName Sample.collect_state
                  Sample.params [] ∅ tt
                  [call_attach 1%positive; call_attach 1%positive;
                   call_detach 1%positive; call_attach 1%positive]
                  1%positive) Ha).
Defined.

(** One handshake, then the queue is drained: one track, one advertisement. *)
Lemma handshake_advertised_once_witness :
  posted (sample_run [call_attach 1%positive;
                      signal_from (remote_obj 1%positive) handshakeSuccess;
                      loop_turn; loop_turn] sample_new) = []
  ∧ count_if (is_trackRemote 1%positive)
      (log (sample_run [call_attach 1%positive;
                        signal_from (remote_obj 1%positive) handshakeSuccess;
                        loop_turn; loop_turn] sample_new)) = 1
  ∧ count_if (is_trackRemote 1%positive)
      (log (sample_run [call_attach 1%positive;
                        signal_from (remote_obj 1%positive) handshakeSuccess;
                        loop_turn; loop_turn] sample_new))
    = count_if (is_meta_handshake 1%positive)
        (log (sample_run [call_attach 1%positive;
                          signal_from (remote_obj 1%positive) handshakeSuccess;
                          loop_turn; loop_turn] sample_new)).
Proof.
  assert (posted (sample_run
                    [call_attach 1%positive;
                     signal_from (remote_obj 1%positive) handshakeSuccess;
                     loop_turn; loop_turn] sample_new) = []) as Hp
    by (vm_compute; reflexivity).
  split; [exact Hp|]. split; [vm_compute; reflexivity|].
  exact (proj2 (handshake_advertised_once Sample.getMeta Sample.make_bitfield
                  Sample.put_chunk Sample.heartbeat_json Sample.digest
                  Sample.endpoint Sample.displayName Sample.collect_state
                  Sample.params [] ∅ tt
                  [call_attach 1%positive;
                   signal_from (remote_obj 1%positive) handshakeSuccess;
                   loop_turn; loop_turn] 1%positive) Hp).
Defined.

(** The replay and one advertisement are pending; two turns serve both. *)
Lemma event_loop_drains_witness :
  length (posted (sample_run
                    [call_attach 1%positive;
                     signal_from (remote_obj 1%positive) handshakeSuccess]
                    sample_new)) ≤ 2
  ∧ posted (sample_run [loop_turn; loop_turn]
              (sample_run
                 [call_attach 1%positive;
                  signal_from (remote_obj 1%positive) handshakeSuccess]
                 sample_new)) = [].
Proof.
  assert (length (posted (sample_run
                            [call_attach 1%positive;
                             signal_from (remote_obj 1%positive)
                               handshakeSuccess]
                            sample_new)) ≤ 2) as Hlen by (vm_compute; lia).
  split; [exact Hlen|].
  destruct (event_loop_drains Sample.getMeta Sample.make_bitfield
              Sample.put_chunk Sample.heartbeat_json Sample.digest
              Sample.endpoint Sample.displayName Sample.collect_state 2
              (sample_run
                 [call_attach 1%positive;
                  signal_from (remote_obj 1%positive) handshakeSuccess]
                 sample_new)) as (_ & Hempty & _).
  exact (Hempty Hlen).
Defined.

(** Before the first turn the replay heads the queue. *)
Lemma replay_runs_once_witness :
  has_loop_turn [call_attach 1%positive;
                 signal_from (remote_obj 1%positive) handshakeSuccess] = false
  ∧ head (posted (sample_run
                    [call_attach 1%positive;
                     signal_from (remote_obj 1%positive) handshakeSuccess]
                    sample_new))
    = Some {| task_context := this; task_functor := go_through_index |}.
Proof.
  split; [reflexivity|].
  destruct (replay_runs_once Sample.getMeta Sample.make_bitfield
              Sample.put_chunk Sample.heartbeat_json Sample.digest
              Sample.endpoint Sample.displayName Sample.collect_state
              Sample.params [] ∅ tt
              [call_attach 1%positive;
               signal_from (remote_obj 1%positive) handshakeSuccess])
    as (_ & Hhead).
  exact (Hhead eq_refl).
Defined.


(** The sample folder has a path: that is its tag, also after a run. *)
Lemma log_tag_constant_witness :
  path Sample.params ≠ EmptyString
  ∧ log_tag (sample_run [call_attach 1%positive; loop_turn] sample_new)
    = path Sample.params.
Proof.
  assert (path Sample.params ≠ EmptyString) as Hpath by discriminate.
  split; [exact Hpath|].
  destruct (log_tag_constant Sample.getMeta Sample.make_bitfield
              Sample.put_chunk Sample.heartbeat_json Sample.digest
              Sample.endpoint Sample.displayName Sample.collect_state
              Sample.params [] ∅ tt [call_attach 1%positive; loop_turn])
    as (_ & Htag & _).
  exact (Htag Hpath).
Defined.

(** Remote 2 attaches to a folder that holds remote 1 and is detached
    again. *)
Lemma attach_detach_round_trip_witness :
  (attach Sample.digest Sample.endpoint Sample.displayName 2%positive
     (sample_run [call_attach 1%positive] sample_new)).1 = true
  ∧ remotes_
      (detach Sample.digest Sample.endpoint Sample.displayName 2%positive
         (attach Sample.digest Sample.endpoint Sample.displayName 2%positive
            (sample_run [call_attach 1%positive] sample_new)).2)
    = remotes_ (sample_run [call_attach 1%positive] sample_new).
Proof.
  assert ((attach Sample.digest Sample.endpoint Sample.displayName 2%positive
             (sample_run [call_attach 1%positive] sample_new)).1 = true)
    as Hadm by (vm_compute; reflexivity).
  split; [exact Hadm|].
  destruct (attach_detach_round_trip Sample.digest Sample.endpoint
              Sample.displayName 2%positive
              (sample_run [call_attach 1%positive] sample_new) Hadm)
    as (Hrem & _).
  exact Hrem.
Defined.

(** Remotes 1 and 2 are attached; remote 1 is detached. *)
Lemma detach_spares_others_witness :
  2%positive ≠ 1%positive
  ∧ 2%positive
      ∈ remotes_ (sample_run [call_attach 1%positive; call_attach 2%positive]
                    sample_new)
  ∧ Sample.digest 2%positive
      ∈ p2p_folders_digests_
          (detach Sample.digest Sample.endpoint Sample.displayName 1%positive
             (sample_run [call_attach 1%positive; call_attach 2%positive]
                sample_new)).
Proof.
  assert (2%positive ≠ 1%positive) as Hne by discriminate.
  assert (2%positive
            ∈ remotes_ (sample_run
                          [call_attach 1%positive; call_attach 2%positive]
                          sample_new)) as Hin by compute_done.
  split; [exact Hne|]. split; [exact Hin|].
  destruct (detach_spares_others Sample.getMeta Sample.make_bitfield
              Sample.put_chunk Sample.heartbeat_json Sample.digest
              Sample.endpoint Sample.displayName Sample.collect_state
              Sample.params [] ∅ tt
              [call_attach 1%positive; call_attach 2%positive]
              1%positive 2%positive Hne Hin) as (_ & Hdig & _).
  exact Hdig.
Defined.
